(** * lisa.util: the thread runner [run_in_threads] and its sweep [_cancel_threads]

    Shallow embedding of [src/lisa/util/__init__.py], lines 176-247.

    The two functions drive [concurrent.futures] objects.  A [Future] changes
    state behind the back of the main thread, so the embedding threads a
    [world] through every call: a logical [clock], the futures created so
    far, the set of cancelled ones, the calls made to the completion
    callback and the outcomes handed over by [result()].  What the worker
    threads do is an oracle carried by each submitted callable: how long it
    waits in the queue, how long it runs and what it produces.  Every
    primitive of the main thread observes the world at the current clock and
    then lets one unit of time pass, so that any interleaving of completions
    with the observations of the main thread is the behaviour of some
    oracle.

    Assumptions of the model:
    - every callable ends, with a value or with an exception of its own,
      which is not a [KeyboardInterrupt] (the [except] clause of line 234
      would catch that one too when [result()] re-raises it);
    - exceptions are told apart by where they come from, not by their Python
      class: the error of a callable, whatever its class, is a [TaskError];
      [ValueError] is the one of the pool constructor and
      [KeyboardInterrupt] the one of CTRL+C;
    - the oracle is not tied to [max_workers]: every schedule the pool can
      produce is covered, and the sample runs use schedules of a pool with
      one worker per callable;
    - CTRL+C is delivered at most once, and only at a step of the polling
      loop (the body of the [try]): the statements before the [try], the
      handler, the [finally] clause and the exit of the [with] block are
      not interrupted.  A CTRL+C that is due earlier is held back until the
      loop starts, one that is due after the loop is never delivered;
      [interrupt_inside_loop] tells the runs in which neither happens;
    - the callback returns without raising; the logger is left out. *)

From Stdlib Require Import List ZArith Lia Bool PeanoNat Permutation.
From Stdlib Require String Ascii.
Import ListNotations.

Set Implicit Arguments.

Section Runner.

(** Results returned and exceptions raised by the submitted callables. *)
Context {value error : Type}.

(** ** Exceptions and outcomes *)

(** The exceptions that reach the main thread, by their origin.  [TaskError]
    is an exception raised inside a callable, of any class but
    [KeyboardInterrupt]; [CancelledError] comes from [Future.result] and
    [Future.exception] on a cancelled future; [KeyboardInterrupt] is CTRL+C;
    [ValueError] is the one raised by the constructor of
    [ThreadPoolExecutor]. *)
Inductive exn : Type :=
| TaskError (e : error)
| CancelledError
| KeyboardInterrupt
| ValueError.

Inductive res (A : Type) : Type :=
| Ret (a : A)
| Raise (x : exn).

Arguments Raise {A} x.

(** ** Callables, futures and the world *)

(** A zero-argument callable of [methods], as the pool runs it: it stays
    queued for [queue_time], runs for [run_time] and then returns a value or
    raises. *)
Record method : Type := {
  outcome : value + error;
  queue_time : nat;
  run_time : nat
}.

(** A [Future]: its identity, the callable behind it and its submission time. *)
Record future : Type := {
  fid : nat;
  job : method;
  born : nat
}.

Definition start_at (f : future) : nat := born f + queue_time (job f).
Definition finish_at (f : future) : nat := start_at f + run_time (job f).

(** An argument given to [completed_callback]: a future (from
    [add_done_callback]) or the literal [False] (from [_cancel_threads]). *)
Inductive cb_arg : Type :=
| CbFuture (id : nat)
| CbFalse.

Record world : Type := {
  submitted : list future;   (* futures created by [pool.submit] *)
  clock : nat;               (* logical time of the main thread *)
  cancelled : list nat;      (* ids of the futures in state CANCELLED *)
  observed : list nat;       (* ids with a done-callback registered *)
  calls : list cb_arg;       (* callback calls made from the main thread *)
  joined : list nat;         (* ids whose outcome [result()] handed over *)
  sigint : option nat        (* when CTRL+C reaches the main thread, if ever *)
}.

Definition boot (interrupt : option nat) : world :=
  {| submitted := []; clock := 0; cancelled := []; observed := [];
     calls := []; joined := []; sigint := interrupt |}.

Definition set_clock (t : nat) (w : world) : world :=
  {| submitted := submitted w; clock := t; cancelled := cancelled w;
     observed := observed w; calls := calls w; joined := joined w;
     sigint := sigint w |}.

Definition tick (w : world) : world := set_clock (S (clock w)) w.

(** Blocking on a future lets time pass until it has finished. *)
Definition wait (f : future) (w : world) : world :=
  set_clock (Nat.max (clock w) (finish_at f)) w.

Definition add_call (a : cb_arg) (w : world) : world :=
  {| submitted := submitted w; clock := clock w; cancelled := cancelled w;
     observed := observed w; calls := calls w ++ [a]; joined := joined w;
     sigint := sigint w |}.

Definition add_cancelled (id : nat) (w : world) : world :=
  {| submitted := submitted w; clock := clock w;
     cancelled := cancelled w ++ [id]; observed := observed w;
     calls := calls w; joined := joined w; sigint := sigint w |}.

Definition add_observed (id : nat) (w : world) : world :=
  {| submitted := submitted w; clock := clock w; cancelled := cancelled w;
     observed := observed w ++ [id]; calls := calls w; joined := joined w;
     sigint := sigint w |}.

Definition add_joined (id : nat) (w : world) : world :=
  {| submitted := submitted w; clock := clock w; cancelled := cancelled w;
     observed := observed w; calls := calls w; joined := joined w ++ [id];
     sigint := sigint w |}.

Definition add_submitted (f : future) (w : world) : world :=
  {| submitted := submitted w ++ [f]; clock := clock w;
     cancelled := cancelled w; observed := observed w; calls := calls w;
     joined := joined w; sigint := sigint w |}.

Definition clear_sigint (w : world) : world :=
  {| submitted := submitted w; clock := clock w; cancelled := cancelled w;
     observed := observed w; calls := calls w; joined := joined w;
     sigint := None |}.

Definition has_id (id : nat) (l : list nat) : bool := existsb (Nat.eqb id) l.

Definition is_cancelled (f : future) (w : world) : bool :=
  has_id (fid f) (cancelled w).

Definition is_finished (f : future) (w : world) : bool :=
  finish_at f <=? clock w.

Definition is_pending (f : future) (w : world) : bool :=
  clock w <? start_at f.

(** How many times [add_done_callback] was called on the future [id]: a
    future calls back once for every registration. *)
Definition registrations (id : nat) (w : world) : nat :=
  count_occ Nat.eq_dec (observed w) id.

Definition add_calls (l : list cb_arg) (w : world) : world :=
  {| submitted := submitted w; clock := clock w; cancelled := cancelled w;
     observed := observed w; calls := calls w ++ l; joined := joined w;
     sigint := sigint w |}.

(** PENDING -> CANCELLED; the done-callbacks of the future run at once, one
    call for each registration. *)
Definition mark_cancelled (f : future) (w : world) : world :=
  add_calls (repeat (CbFuture (fid f)) (registrations (fid f) w))
            (add_cancelled (fid f) w).

(** ** The monad of the main thread: state and exceptions *)

Definition M (A : Type) : Type := world -> res A * world.

Definition ret {A : Type} (a : A) : M A := fun w => (Ret a, w).

Definition bind {A B : Type} (m : M A) (k : A -> M B) : M B :=
  fun w =>
    match m w with
    | (Ret a, w') => k a w'
    | (Raise x, w') => (Raise x, w')
    end.

Notation "x <- m ;; k" := (bind m (fun x => k))
  (at level 61, m at next level, right associativity).
Notation "m ;;; k" := (bind m (fun _ => k))
  (at level 61, right associativity).

(** ** concurrent.futures, as the two functions use it *)

(** [Future.done()]: cancelled or finished. *)
Definition done (f : future) : M bool :=
  fun w => (Ret (is_cancelled f w || is_finished f w), tick w).

(** [Future.cancel()]: succeeds on a cancelled or a pending future, fails on
    a running or finished one. *)
Definition cancel (f : future) : M bool :=
  fun w =>
    if is_cancelled f w then (Ret true, tick w)
    else if is_pending f w then (Ret true, tick (mark_cancelled f w))
    else (Ret false, tick w).

(** [Future.result()]: raises [CancelledError] on a cancelled future,
    otherwise blocks until the call has finished, then returns its value or
    raises its exception. *)
Definition result (f : future) : M value :=
  fun w =>
    if is_cancelled f w then (Raise CancelledError, tick w)
    else
      let w' := tick (add_joined (fid f) (wait f w)) in
      match outcome (job f) with
      | inl v => (Ret v, w')
      | inr e => (Raise (TaskError e), w')
      end.

(** [Future.exception()]: as [result], but the exception is returned
    ([None] when the call returned a value). *)
Definition exception (f : future) : M (option error) :=
  fun w =>
    if is_cancelled f w then (Raise CancelledError, tick w)
    else
      match outcome (job f) with
      | inl _ => (Ret None, tick (wait f w))
      | inr e => (Ret (Some e), tick (wait f w))
      end.

(** [future.add_done_callback(completed_callback)]. *)
Definition add_done_callback (f : future) : M unit :=
  fun w => (Ret tt, tick (add_observed (fid f) w)).

(** [completed_callback(False)]. *)
Definition call_callback_False : M unit :=
  fun w => (Ret tt, tick (add_call CbFalse w)).

(** [ThreadPoolExecutor(max_workers)]: the constructor raises [ValueError]
    when [max_workers <= 0]. *)
Definition ThreadPoolExecutor (max_workers : Z) : M unit :=
  fun w => if (max_workers <=? 0)%Z then (Raise ValueError, w) else (Ret tt, w).

(** [pool.submit(method)]. *)
Definition submit (m : method) : M future :=
  fun w =>
    let f := {| fid := length (submitted w); job := m; born := clock w |} in
    (Ret f, tick (add_submitted f w)).

(** [pool.shutdown(True)], also run when the [with] block is left: waits for
    every future that was not cancelled. *)
Definition shutdown (w : world) : world :=
  fold_left (fun w' f => if is_cancelled f w' then w' else wait f w')
            (submitted w) w.

(** [time.sleep(0.1)]. *)
Definition sleep : M unit := fun w => (Ret tt, tick w).

(** CTRL+C is delivered to the main thread between two of its steps; the
    steps of the polling loop are the ones guarded by [try], and the only
    ones at which the model delivers it, once. *)
Definition sigint_pending (w : world) : bool :=
  match sigint w with
  | Some t => t <=? clock w
  | None => false
  end.

Definition interruptible {A : Type} (m : M A) : M A :=
  fun w =>
    if sigint_pending w then (Raise KeyboardInterrupt, clear_sigint w)
    else m w.

(** All the calls of [completed_callback] up to now: those made from the
    main thread, and those made from the worker threads, where a future that
    has finished calls back once for each of its registrations. *)
Definition fired_by_worker (w : world) (f : future) : bool :=
  negb (is_cancelled f w) && is_finished f w.

Definition worker_calls (w : world) (f : future) : list cb_arg :=
  if fired_by_worker w f
  then repeat (CbFuture (fid f)) (registrations (fid f) w)
  else [].

Definition invocations (w : world) : list cb_arg :=
  calls w ++ flat_map (worker_calls w) (submitted w).

(** ** _cancel_threads (lines 176-196) *)

(** The [for future in futures] loop, with the local [success_futures]. *)
Fixpoint cancel_sweep (futures : list future) (completed_callback : bool)
    (success_futures : list future) : M (list future) :=
  match futures with
  | [] => ret success_futures
  | future :: rest =>
      d <- done future ;;
      failed <- (if d : bool
                 then e <- exception future ;;
                      ret (match e with Some _ => true | None => false end)
                 else ret false) ;;
      if failed : bool then
        (* throw exception, if it's not here. *)
        result future ;;;
        cancel_sweep rest completed_callback success_futures
      else
        d' <- done future ;;
        if negb d' then
          (* cancel running threads. It may need cancellation callback *)
          r <- cancel future ;;
          (if negb r && completed_callback
           then call_callback_False
           else ret tt) ;;;
          (* join exception back to main thread *)
          result future ;;;
          cancel_sweep rest completed_callback success_futures
        else
          cancel_sweep rest completed_callback (success_futures ++ [future])
  end.

Definition _cancel_threads (futures : list future) (completed_callback : bool)
    : M (list future) :=
  cancel_sweep futures completed_callback [].

(** ** run_in_threads (lines 199-247) *)

(** The locals [futures] and [results], which the [try] body mutates and the
    [except] and [finally] clauses read afterwards. *)
Record frame : Type := {
  futures : list future;
  results : list value
}.

(** [futures.remove(future)]: the first occurrence, futures being compared
    by identity. *)
Fixpoint remove_future (f : future) (l : list future) : list future :=
  match l with
  | [] => []
  | x :: l' => if fid x =? fid f then l' else x :: remove_future f l'
  end.

(** [any(not x.done() for x in futures)]; [any] stops at the first hit. *)
Fixpoint any_not_done (l : list future) : M bool :=
  match l with
  | [] => ret false
  | x :: l' =>
      d <- interruptible (done x) ;;
      if negb d then ret true else any_not_done l'
  end.

(** The inner [for future in futures] of the polling loop (lines 222-230):
    the first future found done is removed and its result appended, then
    [break].  Returns [changed]. *)
Fixpoint scan (l : list future) (fr : frame) (w : world)
    : res bool * frame * world :=
  match l with
  | [] => (Ret false, fr, w)
  | future :: l' =>
      match interruptible (done future) w with
      | (Raise x, w1) => (Raise x, fr, w1)
      | (Ret false, w1) => scan l' fr w1
      | (Ret true, w1) =>
          (* removed finished threads *)
          let fr1 := {| futures := remove_future future (futures fr);
                        results := results fr |} in
          (* exception will throw at this point *)
          match interruptible (result future) w1 with
          | (Raise x, w2) => (Raise x, fr1, w2)
          | (Ret v, w2) =>
              (Ret true,
               {| futures := futures fr1; results := results fr1 ++ [v] |},
               w2)
          end
      end
  end.

(** The [while] loop of lines 219-232.  [None]: the fuel ran out. *)
Fixpoint polling (fuel : nat) (fr : frame) (w : world)
    : option (res unit * frame * world) :=
  match fuel with
  | O => None
  | S fuel' =>
      match any_not_done (futures fr) w with
      | (Raise x, w1) => Some (Raise x, fr, w1)
      | (Ret false, w1) => Some (Ret tt, fr, w1)
      | (Ret true, w1) =>
          match scan (futures fr) fr w1 with
          | (Raise x, fr2, w2) => Some (Raise x, fr2, w2)
          | (Ret true, fr2, w2) => polling fuel' fr2 w2
          | (Ret false, fr2, w2) =>
              match interruptible sleep w2 with
              | (Raise x, w3) => Some (Raise x, fr2, w3)
              | (Ret _, w3) => polling fuel' fr2 w3
              end
          end
      end
  end.

(** Iterations that always suffice: one per future to remove, and one per
    unit of time until the last future has finished. *)
Definition last_finish (l : list future) : nat :=
  fold_right (fun f t => Nat.max (finish_at f) t) 0 l.

Definition polling_fuel (fr : frame) (w : world) : nat :=
  S (length (futures fr) + (last_finish (futures fr) - clock w)).

(** [except KeyboardInterrupt:] (lines 234-239).  The only
    [KeyboardInterrupt] of the model is CTRL+C: the callables raise none. *)
Definition on_interrupt (completed_callback : bool)
    (s : res unit * frame * world) : res unit * frame * world :=
  match s with
  | (Raise KeyboardInterrupt, fr, w) =>
      (* support to interrupt runs on local debugging. *)
      match _cancel_threads (futures fr) completed_callback w with
      | (Raise x, w1) => (Raise x, fr, w1)
      | (Ret fs, w1) =>
          (Ret tt, {| futures := fs; results := results fr |}, shutdown w1)
      end
  | _ => s
  end.

(** [finally:] (lines 240-243): an exception raised by the clause replaces
    the one that was propagating; otherwise the latter goes on. *)
Definition finalize (completed_callback : bool)
    (s : res unit * frame * world) : res unit * frame * world :=
  match s with
  | (r, fr, w) =>
      match _cancel_threads (futures fr) completed_callback w with
      | (Raise x, w1) => (Raise x, fr, w1)
      | (Ret fs, w1) => (r, {| futures := fs; results := results fr |}, w1)
      end
  end.

(** The last [for future in futures] (lines 244-246). *)
Fixpoint collect (l : list future) (acc : list value) : M (list value) :=
  match l with
  | [] => ret acc
  | future :: l' =>
      (* exception will throw at this point *)
      v <- result future ;;
      collect l' (acc ++ [v])
  end.

(** [[pool.submit(method) for method in methods]]. *)
Fixpoint submit_all (methods : list method) : M (list future) :=
  match methods with
  | [] => ret []
  | m :: ms =>
      f <- submit m ;;
      fs <- submit_all ms ;;
      ret (f :: fs)
  end.

Fixpoint register_all (l : list future) : M unit :=
  match l with
  | [] => ret tt
  | f :: l' => add_done_callback f ;;; register_all l'
  end.

(** The [try] statement with its two clauses, from the state in which the
    futures have been submitted. *)
Definition guarded (completed_callback : bool) (fr : frame) (w : world)
    : option (res unit * frame * world) :=
  match polling (polling_fuel fr w) fr w with
  | None => None
  | Some s => Some (finalize completed_callback (on_interrupt completed_callback s))
  end.

(** Lines 214-217: the futures are created and the callback registered. *)
Definition launch (methods : list method) (completed_callback : bool)
    : M frame :=
  futures <- submit_all methods ;;
  (if completed_callback then register_all futures else ret tt) ;;;
  ret {| futures := futures; results := [] |}.

(** The body of the [with] block. *)
Definition pool_block (methods : list method) (completed_callback : bool)
    (w : world) : option (res (list value) * world) :=
  match launch methods completed_callback w with
  | (Raise x, w1) => Some (Raise x, w1)
  | (Ret fr, w1) =>
      match guarded completed_callback fr w1 with
      | None => None
      | Some (Raise x, _, w2) => Some (Raise x, w2)
      | Some (Ret _, fr', w2) => Some (collect (futures fr') (results fr') w2)
      end
  end.

(** [log] only receives two messages and is left out. *)
Definition run_in_threads (methods : list method) (max_workers : Z)
    (completed_callback : bool) (w : world)
    : option (res (list value) * world) :=
  let max_workers :=
    if (max_workers <=? 0)%Z then Z.of_nat (length methods) else max_workers in
  match ThreadPoolExecutor max_workers w with
  | (Raise x, w1) => Some (Raise x, w1)
  | (Ret _, w1) =>
      match pool_block methods completed_callback w1 with
      | None => None
      | Some (r, w2) => Some (r, shutdown w2)
      end
  end.

(** ** Vocabulary of the statements *)

(** The world in which the sweep awaits a future whose [cancel()] failed:
    three observations were made ([done], [done], [cancel]), then the
    callback was called with [False] if there is one. *)
Definition after_failed_cancel (cb : bool) (w : world) : world :=
  if cb then tick (add_call CbFalse (tick (tick (tick w))))
  else tick (tick (tick w)).

(** The world after [result()] has handed over the outcome of [f]. *)
Definition after_join (f : future) (w : world) : world :=
  tick (add_joined (fid f) (wait f w)).

(** [w'] differs from [w] by the passing of time only. *)
Definition only_time_passed (w w' : world) : Prop :=
  submitted w' = submitted w /\ cancelled w' = cancelled w /\
  observed w' = observed w /\ calls w' = calls w /\
  joined w' = joined w /\ sigint w' = sigint w /\ clock w <= clock w'.

(** What the polling loop can change: time passes, outcomes are handed
    over, a pending CTRL+C is consumed. *)
Definition polled (w w' : world) : Prop :=
  submitted w' = submitted w /\ cancelled w' = cancelled w /\
  observed w' = observed w /\ calls w' = calls w /\
  clock w <= clock w' /\ (sigint w = None -> sigint w' = None).

(** The futures that left [futures] without their result being appended to
    [results], by the way the polling loop ended: none when it ended by
    itself, the future whose error it raised, at most one when CTRL+C came
    between [remove] and [append]. *)
Definition lost_by (r : res unit) (lost : list future) : Prop :=
  match r with
  | Ret _ => lost = []
  | Raise (TaskError e) => exists f, lost = [f] /\ outcome (job f) = inr e
  | Raise KeyboardInterrupt => length lost <= 1
  | Raise _ => False
  end.

(** CTRL+C reaches the main thread inside the polling loop or not during the
    run: it has not come when the [try] is entered (the end of [launch]),
    and none is left undelivered in [w'], where the run ends. *)
Definition interrupt_inside_loop (methods : list method)
    (completed_callback : bool) (sig : option nat) (w' : world) : Prop :=
  sigint_pending (snd (launch methods completed_callback (boot sig))) = false /\
  sigint_pending w' = false.

(** How many of the calls [l] of the callback were given the future [id]. *)
Definition calls_with_future (id : nat) (l : list cb_arg) : nat :=
  length (filter (fun a => match a with
                           | CbFuture j => j =? id
                           | CbFalse => false
                           end) l).

(** The calls made from the main thread with a future as argument are those
    of [cancel()]: for each cancelled future, one for each registration. *)
Definition tidy (w : world) : Prop :=
  forall i,
    calls_with_future i (calls w) =
      if has_id i (cancelled w) then registrations i w else 0.

(** From [w] to [w']: the same futures with the same callbacks, later, and
    the calls still in line with the cancellations. *)
Definition kept (w w' : world) : Prop :=
  submitted w' = submitted w /\ observed w' = observed w /\
  clock w <= clock w' /\ (tidy w -> tidy w').

(** What the outcomes of the futures of [l] amount to when they are taken in
    order: the values appended to [acc], or the first error. *)
Fixpoint gather (l : list future) (acc : list value) : res (list value) :=
  match l with
  | [] => Ret acc
  | f :: l' =>
      match outcome (job f) with
      | inl v => gather l' (acc ++ [v])
      | inr e => Raise (TaskError e)
      end
  end.

(** [Future.done()] would answer [True]. *)
Definition settled (w : world) (f : future) : Prop :=
  is_cancelled f w || is_finished f w = true.

(** The callable returns a value. *)
Definition succeeds (m : method) : Prop := exists v, outcome m = inl v.

Definition returned (m : method) : list value :=
  match outcome m with
  | inl v => [v]
  | inr _ => []
  end.

(** [l] is [l'] with some elements left out: what is kept is in the order
    of [l']. *)
Inductive subsequence {A : Type} : list A -> list A -> Prop :=
| subsequence_nil : subsequence [] []
| subsequence_skip x l l' : subsequence l l' -> subsequence l (x :: l')
| subsequence_keep x l l' : subsequence l l' -> subsequence (x :: l) (x :: l').

(** How a run of [run_in_threads] ends. *)
Definition raises {A : Type} (o : option (res A * world)) : Prop :=
  exists x w, o = Some (Raise x, w).

Definition returns {A : Type} (o : option (res A * world)) (a : A) : Prop :=
  exists w, o = Some (Ret a, w).

(** The results of the callables, in submission order. *)
Definition values (methods : list method) : list value :=
  flat_map returned methods.

End Runner.

Arguments Ret {error A} a.
Arguments Raise {error A} x.

(** * Sample runs *)

Module Sample.

Definition task (o : nat + nat) (q r : nat) : @method nat nat :=
  {| outcome := o; queue_time := q; run_time := r |}.

(** A world at time [t] in which nothing was cancelled or called yet. *)
Definition at_time (t : nat) : @world nat nat :=
  {| submitted := []; clock := t; cancelled := []; observed := [];
     calls := []; joined := []; sigint := None |}.

(** Futures submitted at time 0. *)
Definition handle (i : nat) (o : nat + nat) (q r : nat) : @future nat nat :=
  {| fid := i; job := task o q r; born := 0 |}.

(** Returns 10 after a long run; returns 20 after a short one. *)
Definition slow_then_fast : list (@method nat nat) :=
  [task (inl 10) 0 100; task (inl 20) 0 1].


(** Raises 1 at once; returns 2 after running for a while. *)
Definition failure_then_slow : list (@method nat nat) :=
  [task (inr 1) 0 0; task (inl 2) 0 50].


(** One callable that runs for a long time and returns 10. *)
Definition one_slow : list (@method nat nat) := [task (inl 10) 0 100].



End Sample.

(** * More vocabulary for the runner *)

Section RunnerVocabulary.

Context {value error : Type}.


(** No callback was registered and none was called. *)
Definition silent (w : @world value error) : Prop :=
  observed w = [] /\ calls w = [].


End RunnerVocabulary.

(** * The other helpers of lisa.util (lines 52-163)

    Python objects are attribute tables with a truth value, dictionaries are
    association lists in insertion order, Python's [None] is [None] of
    [option].  What the standard library does ([re], [pathlib], [strftime],
    the system clock, the file system) enters as a parameter or is written
    out where the helper depends on it. *)

Module Util.

Import Stdlib.Strings.String Stdlib.Strings.Ascii.
Local Open Scope string_scope.

(** ** Exceptions and results *)

Inductive error : Type :=
| AssertionError
| AttributeError (name : string)
| IndexError
| NotImplementedError
| IsADirectoryError
| LisaException (message : string)
| Other (tag : string) (is_exception : bool).

(** [isinstance(e, Exception)]: false for [KeyboardInterrupt], [SystemExit]
    and the like, which derive from [BaseException] only. *)
Definition is_Exception (e : error) : bool :=
  match e with
  | Other _ b => b
  | _ => true
  end.

Inductive py (A : Type) : Type :=
| Return (a : A)
| Throw (e : error).

Arguments Return {A} a.
Arguments Throw {A} e.

(** ** Tables: dictionaries and the attributes of an object *)

Fixpoint assoc_get {A : Type} (k : string) (d : list (string * A)) : option A :=
  match d with
  | [] => None
  | (k', v) :: d' => if String.eqb k' k then Some v else assoc_get k d'
  end.

(** [d[k] = v]: an existing key keeps its place, a new one goes last. *)
Fixpoint assoc_set {A : Type} (k : string) (v : A) (d : list (string * A))
    : list (string * A) :=
  match d with
  | [] => [(k, v)]
  | (k', v') :: d' =>
      if String.eqb k' k then (k, v) :: d' else (k', v') :: assoc_set k v d'
  end.

Section Objects.

(** The values that are not [None]. *)
Variable V : Type.

Definition dict : Type := list (string * V).

Record object : Type := {
  truth : bool;                             (* [bool(obj)] *)
  attributes : list (string * option V)     (* [None]: the attribute is None *)
}.

Definition hasattr (o : object) (name : string) : bool :=
  match assoc_get name (attributes o) with
  | Some _ => true
  | None => false
  end.

Definition getattr (o : object) (name : string) : py (option V) :=
  match assoc_get name (attributes o) with
  | Some v => Return v
  | None => Throw (AttributeError name)
  end.

Definition setattr (o : object) (name : string) (v : option V) : object :=
  {| truth := truth o; attributes := assoc_set name v (attributes o) |}.

(** *** fields_to_dict (lines 126-138) *)

(** The [for field in fields] loop, with the local [result]. *)
Fixpoint fields_to_dict_loop (src : object) (fields : list string)
    (result : dict) : py dict :=
  match fields with
  | [] => Return result
  | field :: rest =>
      match getattr src field with
      | Throw e => Throw e
      | Return value =>
          match value with
          | Some v => fields_to_dict_loop src rest (assoc_set field v result)
          | None => fields_to_dict_loop src rest result
          end
      end
  end.

(** [fields] is an [Iterable[str]]: [fields_is_true] is its truth value,
    which [assert fields] tests, and [items] is what iterating over it
    yields. *)
Definition fields_to_dict_iterable (src : object) (fields_is_true : bool)
    (items : list string) : py dict :=
  if negb (truth src) then Throw AssertionError          (* assert src *)
  else if negb fields_is_true then Throw AssertionError  (* assert fields *)
  else fields_to_dict_loop src items [].

(** A list, a tuple or a set is true when it is not empty; an iterator or a
    generator is always true. *)
Definition list_is_true {A : Type} (l : list A) : bool :=
  match l with
  | [] => false
  | _ :: _ => true
  end.

(** [fields_to_dict] called with a list. *)
Definition fields_to_dict (src : object) (fields : list string) : py dict :=
  fields_to_dict_iterable src (list_is_true fields) fields.

(** *** set_filtered_fields (lines 141-154) *)

(** The [for field_name in fields] loop; [dest] is mutated in place, so what
    was copied stays copied when the loop raises. *)
Fixpoint set_filtered_fields_loop (src dest : object) (fields : list string)
    : py unit * object :=
  match fields with
  | [] => (Return tt, dest)
  | field_name :: rest =>
      if hasattr src field_name then
        match getattr src field_name with
        | Throw e => (Throw e, dest)
        | Return field_value =>
            match field_value with
            | Some _ =>
                set_filtered_fields_loop
                  src (setattr dest field_name field_value) rest
            | None => set_filtered_fields_loop src dest rest
            end
        end
      else
        (Throw (LisaException
                  ("field " ++ field_name ++ " doesn't exist on src")),
         dest)
  end.

Definition set_filtered_fields (src dest : object) (fields : list string)
    : py unit * object :=
  if negb (truth src) then (Throw AssertionError, dest)     (* assert src *)
  else if negb (truth dest) then (Throw AssertionError, dest) (* assert dest *)
  else
    match fields with
    | [] => (Throw AssertionError, dest)                    (* assert fields *)
    | _ => set_filtered_fields_loop src dest fields
    end.

(** What [src] has to give for the key [k] when [fields] are copied: its
    attribute [k], if [k] is listed and the attribute is not [None]. *)
Definition offer (src : object) (fields : list string) (k : string)
    : option V :=
  if existsb (String.eqb k) fields
  then match assoc_get k (attributes src) with
       | Some (Some v) => Some v
       | _ => None
       end
  else None.

End Objects.

(** ** find_patterns_in_lines (lines 157-163) *)

(** A compiled pattern, as the function uses it: [pattern.findall]. *)
Record Pattern : Type := { findall : string -> list string }.

(** [l[i] = v]; [None] stands for [IndexError]. *)
Fixpoint list_set {A : Type} (i : nat) (v : A) (l : list A) : option (list A) :=
  match l, i with
  | [], _ => None
  | _ :: l', O => Some (v :: l')
  | x :: l', S i' =>
      match list_set i' v l' with
      | Some r => Some (x :: r)
      | None => None
      end
  end.

(** The inner [for index, pattern in enumerate(patterns)]. *)
Fixpoint patterns_loop (index : nat) (patterns : list Pattern) (line : string)
    (results : list (list string)) : py (list (list string)) :=
  match patterns with
  | [] => Return results
  | pattern :: rest =>
      match nth_error results index with
      | None => Throw IndexError
      | Some [] =>                                   (* not results[index] *)
          match list_set index (findall pattern line) results with
          | Some results' => patterns_loop (S index) rest line results'
          | None => Throw IndexError
          end
      | Some (_ :: _) => patterns_loop (S index) rest line results
      end
  end.

(** The outer [for line in ...]. *)
Fixpoint lines_loop (lines : list string) (patterns : list Pattern)
    (results : list (list string)) : py (list (list string)) :=
  match lines with
  | [] => Return results
  | line :: rest =>
      match patterns_loop 0 patterns line results with
      | Throw e => Throw e
      | Return results' => lines_loop rest patterns results'
      end
  end.

Section Lines.

(** [str.splitlines(keepends=False)]. *)
Variable splitlines : string -> list string.

Definition find_patterns_in_lines (lines : string) (patterns : list Pattern)
    : py (list (list string)) :=
  lines_loop (splitlines lines) patterns (repeat [] (List.length patterns)).

End Lines.

(** The hits of the first line on which the pattern finds something. *)
Fixpoint first_hits (pattern : Pattern) (lines : list string) : list string :=
  match lines with
  | [] => []
  | line :: rest =>
      match findall pattern line with
      | [] => first_hits pattern rest
      | hits => hits
      end
  end.

(** ** InitializableMixin (lines 63-92) *)

Section Initializable.

(** The attributes of the object other than [_is_initialized], and the
    arguments handed on to [_initialize]. *)
Variables (state args : Type).

Record initializable : Type := {
  _is_initialized : bool;
  body : state
}.

Definition set_is_initialized (b : bool) (self : initializable)
    : initializable :=
  {| _is_initialized := b; body := body self |}.

(** [_initialize] of the mixin itself. *)
Definition _initialize_base (a : args) (self : initializable)
    : py unit * initializable :=
  (Throw NotImplementedError, self).

(** [initialize], for the [_initialize] of the class of [self]. *)
Definition initialize
    (_initialize : args -> initializable -> py unit * initializable)
    (a : args) (self : initializable) : py unit * initializable :=
  if negb (_is_initialized self) then
    match _initialize a (set_is_initialized true self) with
    | (Return _, self') => (Return tt, self')
    | (Throw identifier, self') =>
        if is_Exception identifier
        then (Throw identifier, set_is_initialized false self')
        else (Throw identifier, self')
    end
  else (Return tt, self).

(** [_initialize] leaves [_is_initialized] alone. *)
Definition keeps_flag
    (_initialize : args -> initializable -> py unit * initializable) : Prop :=
  forall a self,
    _is_initialized (snd (_initialize a self)) = _is_initialized self.

End Initializable.

(** ** ContextMixin (lines 52-60) *)

Section Context.

(** Classes, their instances, [context_type()] and [isinstance]. *)
Variables (class instance : Type).
Variable construct : class -> instance.
Variable isinstance : instance -> class -> bool.

(** [self] is its attribute [_context], if it has one. *)
Definition get_context (context_type : class) (self : option instance)
    : py instance * option instance :=
  match self with
  | None =>
      let c := construct context_type in
      (Return c, Some c)
  | Some c =>
      if isinstance c context_type then (Return c, Some c)
      else (Throw AssertionError, Some c)
  end.

End Context.

(** ** get_datetime_path (lines 101-106) *)

Record datetime : Type := {
  year : N; month : N; day : N;
  hour : N; minute : N; second : N; microsecond : N
}.

Definition digit (n : N) : ascii := ascii_of_N (48 + n mod 10).

(** Zero-padded decimal fields of [strftime], for fields in their ranges. *)
Definition pad2 (n : N) : string :=
  String (digit (n / 10)) (String (digit n) "").

Definition pad3 (n : N) : string := String (digit (n / 100)) (pad2 n).

Definition pad4 (n : N) : string := String (digit (n / 1000)) (pad3 n).

Definition pad6 (n : N) : string :=
  String (digit (n / 100000)) (String (digit (n / 10000)) (pad4 n)).

(** [%Y]: the year in decimal, which the C library does not pad: a year
    below 1000 has fewer than four digits (years go from 1 to 9999). *)
Definition strftime_Y (y : N) : string :=
  if (y <? 10)%N then String (digit y) ""
  else if (y <? 100)%N then pad2 y
  else if (y <? 1000)%N then pad3 y
  else pad4 y.

(** [strftime("%Y%m%d")] and [strftime("%H%M%S-%f")]. *)
Definition strftime_Ymd (d : datetime) : string :=
  strftime_Y (year d) ++ pad2 (month d) ++ pad2 (day d).

Definition strftime_HMSf (d : datetime) : string :=
  pad2 (hour d) ++ pad2 (minute d) ++ pad2 (second d) ++ "-"
    ++ pad6 (microsecond d).

(** [s[:-3]]. *)
Definition but_last3 (s : string) : string := substring 0 (length s - 3) s.

Section Clock.

(** The system clock: the UTC time at its [n]-th reading. *)
Variable utc : nat -> datetime.

(** [datetime.now()] and [datetime.utcnow()] read the clock; [utcnow] is a
    class method, also when called on an instance.  The state is the number
    of readings made so far. *)
Definition get_datetime_path (current : option datetime) (readings : nat)
    : string * nat :=
  let readings :=
    match current with
    | None => S readings               (* current = datetime.now() *)
    | Some _ => readings
    end in
  let date := strftime_Ymd (utc readings) in
  let time := but_last3 (strftime_HMSf (utc (S readings))) in
  (date ++ "-" ++ time, S (S readings)).

End Clock.

(** ** get_public_key_data (lines 109-123) *)

(** A [pathlib] path: the directory part and the final component. *)
Record Path : Type := { parent : list string; name : string }.

Inductive node : Type :=
| File (data : string)
| Directory.

(** [name.rfind(c)]. *)
Fixpoint rfind (c : ascii) (s : string) : option nat :=
  match s with
  | EmptyString => None
  | String a s' =>
      match rfind c s' with
      | Some i => Some (S i)
      | None => if Ascii.eqb a c then Some 0 else None
      end
  end.

(** [PurePath.stem]: the final component without its last suffix. *)
Definition stem (p : Path) : string :=
  match rfind "."%char (name p) with
  | Some i =>
      if ((0 <? i) && (i <? length (name p) - 1))%nat
      then substring 0 i (name p)
      else name p
  | None => name p
  end.

Section Files.

(** [Path(s)] and [str(path)]; the file system. *)
Variable parse : string -> Path.
Variable path_text : Path -> string.
Variable fs : Path -> option node.

Definition get_public_key_data (private_key_file_path : string) : py string :=
  let private_key_path := parse private_key_file_path in
  match fs private_key_path with
  | None =>
      Throw (LisaException
               ("private key file not exist " ++ private_key_file_path))
  | Some _ =>
      let public_key_file := stem private_key_path in
      let public_key_path :=
        {| parent := parent private_key_path;
           name := public_key_file ++ ".pub" |} in
      match fs public_key_path with
      | None =>
          Throw (LisaException
                   ("public key file not exist " ++ path_text public_key_path))
      | Some Directory => Throw IsADirectoryError
      | Some (File public_key_data) => Return public_key_data
      end
  end.

End Files.

End Util.

(** * Sample objects for the helpers *)

Module UtilSample.

Import Stdlib.Strings.String Stdlib.Strings.Ascii.
Import Util.
Local Open Scope string_scope.

(** An object with a name, a size and a port that is [None]. *)
Definition server : object nat :=
  {| truth := true;
     attributes := [("name", Some 1); ("port", None); ("size", Some 3)] |}.

(** An object to copy to, with a size of its own. *)
Definition blank : object nat :=
  {| truth := true; attributes := [("size", Some 9); ("zone", Some 0)] |}.

(** An object that is not initialized yet. *)
Definition fresh : initializable nat :=
  {| _is_initialized := false; body := 0 |}.

(** An [_initialize] that adds its argument to the body. *)
Definition adding (a : nat) (self : initializable nat)
    : py unit * initializable nat :=
  (Return tt,
   {| _is_initialized := _is_initialized self; body := body self + a |}).

(** An [_initialize] that is interrupted from the keyboard. *)
Definition interrupted (a : nat) (self : initializable nat)
    : py unit * initializable nat :=
  (Throw (Other "KeyboardInterrupt" false), self).

(** Paths of one component; a directory with a private key and its public
    key. *)
Definition one_component (s : string) : Path := {| parent := []; name := s |}.

Definition key_files (p : Path) : option node :=
  if String.eqb (name p) "id_rsa.pem" then Some (File "PRIVATE")
  else if String.eqb (name p) "id_rsa.pub" then Some (File "ssh-rsa AAAA")
  else None.

(** A clock that stands still in March 2021, and one in the year 999. *)
Definition in_2021 (n : nat) : datetime :=
  {| year := 2021; month := 3; day := 7;
     hour := 9; minute := 5; second := 30; microsecond := 123987 |}.

Definition in_999 (n : nat) : datetime :=
  {| year := 999; month := 3; day := 7;
     hour := 9; minute := 5; second := 30; microsecond := 123987 |}.

End UtilSample.

(** * Properties *)

Unset Implicit Arguments.

Section Properties.

Context {value error : Type}.

Implicit Types (f x : @future value error) (l : list (@future value error)).
Implicit Types (w : @world value error) (fr : @frame value error).

(** ** Time only moves forward *)

Lemma finish_after_start f : start_at f <= finish_at f.
Proof. unfold finish_at. lia. Qed.

Lemma result_clock f w r w' :
  result f w = (r, w') -> clock w < clock w'.
Proof.
  unfold result. intros H.
  destruct (is_cancelled f w); [|destruct (outcome (job f))];
    inversion H; subst; cbn; lia.
Qed.

(** ** The polling loop terminates *)

Lemma remove_future_length f l :
  In f l -> S (length (remove_future f l)) = length l.
Proof.
  induction l as [|x l IH]; cbn; [tauto|].
  intros [->|Hin].
  - rewrite Nat.eqb_refl. reflexivity.
  - destruct (fid x =? fid f); [reflexivity|]. cbn. rewrite IH; auto.
Qed.

Lemma last_finish_cons x l :
  last_finish (x :: l) = Nat.max (finish_at x) (last_finish l).
Proof. reflexivity. Qed.

Lemma last_finish_remove f l :
  last_finish (remove_future f l) <= last_finish l.
Proof.
  unfold last_finish.
  induction l as [|x l IH]; cbn [remove_future fold_right]; [lia|].
  destruct (fid x =? fid f); cbn [fold_right]; lia.
Qed.

(** [any] answers [True] only on a future that has not finished yet, and at
    least one observation was made. *)
Lemma any_not_done_true l w w' :
  any_not_done l w = (Ret true, w') ->
  clock w < clock w' /\ clock w < last_finish l.
Proof.
  revert w. induction l as [|x l IH]; intros w; cbn [any_not_done].
  - unfold ret. intros H. inversion H.
  - rewrite last_finish_cons. unfold bind, interruptible.
    destruct (sigint_pending w); [intros H; inversion H|].
    unfold done at 1.
    destruct (is_cancelled x w || is_finished x w) eqn:Hd; cbn [negb].
    + intros H. apply IH in H. cbn [tick set_clock clock] in H. lia.
    + unfold ret. intros H. inversion H; subst. cbn [tick set_clock clock].
      apply orb_false_iff in Hd. destruct Hd as [_ Hf].
      unfold is_finished in Hf. apply Nat.leb_gt in Hf. lia.
Qed.

Lemma scan_clock l fr w r fr' w' :
  scan l fr w = (r, fr', w') -> clock w <= clock w'.
Proof.
  revert w. induction l as [|x l IH]; intros w; cbn.
  - intros H. inversion H. reflexivity.
  - unfold interruptible at 1.
    destruct (sigint_pending w); [intros H; inversion H; reflexivity|].
    unfold done.
    destruct (is_cancelled x w || is_finished x w).
    + unfold interruptible. cbn [sigint_pending].
      destruct (sigint_pending (tick w)).
      * intros H. inversion H. cbn. lia.
      * destruct (result x (tick w)) as [[v|e] w2] eqn:Hr;
          apply result_clock in Hr; cbn in Hr;
          intros H; inversion H; subst; lia.
    + intros H. apply IH in H. cbn in H. lia.
Qed.

Lemma scan_frame l fr w r fr' w' :
  scan l fr w = (r, fr', w') ->
  incl l (futures fr) ->
  match r with
  | Ret false => fr' = fr
  | Raise KeyboardInterrupt =>
      fr' = fr \/
      exists f, In f l /\ results fr' = results fr /\
                futures fr' = remove_future f (futures fr)
  | Raise _ | Ret true =>
      exists f, In f l /\ futures fr' = remove_future f (futures fr)
  end.
Proof.
  revert w. induction l as [|x l IH]; intros w; cbn.
  - intros H _. inversion H. reflexivity.
  - intros H Hincl.
    assert (Hl : incl l (futures fr)) by (intros y Hy; apply Hincl; now right).
    unfold interruptible at 1 in H.
    destruct (sigint_pending w).
    { inversion H. now left. }
    unfold done in H.
    destruct (is_cancelled x w || is_finished x w).
    + unfold interruptible in H.
      destruct (sigint_pending (tick w)).
      { inversion H; subst. right. exists x. cbn. auto. }
      unfold result in H.
      destruct (is_cancelled x (tick w)).
      { inversion H; subst. exists x. cbn. auto. }
      destruct (outcome (job x)); inversion H; subst; exists x; cbn; auto.
    + specialize (IH _ H Hl).
      destruct r as [[|]|[e| | |]]; auto.
      * destruct IH as (f & Hf & E). exists f. auto.
      * destruct IH as (f & Hf & E). exists f. auto.
      * destruct IH as (f & Hf & E). exists f. auto.
      * destruct IH as [E|(f & Hf & E)]; [now left|right; exists f; tauto].
      * destruct IH as (f & Hf & E). exists f. auto.
Qed.

Lemma polling_enough_fuel (fuel : nat) fr w :
  length (futures fr) + (last_finish (futures fr) - clock w) < fuel ->
  polling fuel fr w <> None.
Proof.
  revert fr w. induction fuel as [|fuel IH]; intros fr w Hfuel; [lia|].
  cbn.
  destruct (any_not_done (futures fr) w) as [[[|]|x] w1] eqn:Hany;
    try discriminate.
  apply any_not_done_true in Hany. destruct Hany as [Hw1 Hlast].
  destruct (scan (futures fr) fr w1) as [[r fr2] w2] eqn:Hscan.
  pose proof Hscan as Hw2. apply scan_clock in Hw2.
  pose proof Hscan as Hfr. apply scan_frame in Hfr; [|apply incl_refl].
  destruct r as [[|]|x]; try discriminate.
  - destruct Hfr as (f & Hin & E).
    apply IH. rewrite E.
    pose proof (remove_future_length _ _ Hin).
    pose proof (last_finish_remove f (futures fr)). lia.
  - subst fr2. unfold interruptible.
    destruct (sigint_pending w2); [discriminate|].
    cbn. apply IH. cbn. lia.
Qed.

Lemma guarded_total (cb : bool) fr w :
  guarded cb fr w <> None.
Proof.
  unfold guarded.
  destruct (polling (polling_fuel fr w) fr w) eqn:H; [discriminate|].
  exfalso. revert H. apply polling_enough_fuel. unfold polling_fuel. lia.
Qed.

(** X1.  Every callable ends, so the polling loop ends: every run of
    [run_in_threads] ends with a result or an exception (the fuel of the
    model never runs out). *)
Theorem run_in_threads_total (methods : list (@method value error)) (max_workers : Z)
    (cb : bool) w :
  exists r w', run_in_threads methods max_workers cb w = Some (r, w').
Proof.
  unfold run_in_threads.
  destruct (ThreadPoolExecutor _ w) as [[[]|x] w1]; [|eauto].
  unfold pool_block.
  destruct (launch methods cb w1) as [[fr|x] w2]; [|eauto].
  pose proof (guarded_total cb fr w2) as G.
  destruct (guarded cb fr w2) as [[[[[]|x] fr'] w3]|]; [| |congruence].
  - destruct (collect (futures fr') (results fr') w3) as [r w4]. eauto.
  - eauto.
Qed.

(** ** One turn of the sweep *)

#[local] Arguments is_finished : simpl never.
#[local] Arguments is_pending : simpl never.
#[local] Arguments has_id : simpl never.
#[local] Arguments mark_cancelled : simpl never.
#[local] Arguments is_cancelled : simpl never.
#[local] Arguments Nat.max : simpl never.

Lemma finished_later f w t :
  is_finished f w = true -> clock w <= t -> is_finished f (set_clock t w) = true.
Proof.
  unfold is_finished. cbn. intros H Ht.
  apply Nat.leb_le in H. apply Nat.leb_le. lia.
Qed.

Lemma finished_after_wait f w : is_finished f (tick (wait f w)) = true.
Proof. unfold is_finished. cbn. apply Nat.leb_le. lia. Qed.

Lemma cancelled_mark f w :
  cancelled (mark_cancelled f w) = cancelled w ++ [fid f].
Proof.
  unfold mark_cancelled. destruct (has_id (fid f) (observed w)); reflexivity.
Qed.

Lemma has_id_app (i : nat) (a b : list nat) :
  has_id i (a ++ b) = has_id i a || has_id i b.
Proof. unfold has_id. apply existsb_app. Qed.

Lemma has_id_last (i : nat) (a : list nat) : has_id i (a ++ [i]) = true.
Proof.
  rewrite has_id_app. unfold has_id at 2. cbn. rewrite Nat.eqb_refl.
  apply orb_true_iff. right. reflexivity.
Qed.

Lemma is_cancelled_tick f w : is_cancelled f (tick w) = is_cancelled f w.
Proof. reflexivity. Qed.

Lemma is_cancelled_wait f x w : is_cancelled f (wait x w) = is_cancelled f w.
Proof. reflexivity. Qed.

Lemma is_cancelled_add_call f a w :
  is_cancelled f (add_call a w) = is_cancelled f w.
Proof. reflexivity. Qed.

Lemma is_cancelled_add_joined f i w :
  is_cancelled f (add_joined i w) = is_cancelled f w.
Proof. reflexivity. Qed.

Lemma is_cancelled_mark f w : is_cancelled f (mark_cancelled f w) = true.
Proof. unfold is_cancelled. rewrite cancelled_mark. apply has_id_last. Qed.

Create Rewrite HintDb world.

Hint Rewrite is_cancelled_tick is_cancelled_wait is_cancelled_add_call
  is_cancelled_add_joined : world.

Ltac wcbn :=
  cbn [clock cancelled calls joined observed submitted sigint tick set_clock
       wait add_call add_joined add_cancelled add_observed add_submitted
       clear_sigint after_join after_failed_cancel].

Tactic Notation "wcbn" "in" hyp(H) :=
  cbn [clock cancelled calls joined observed submitted sigint tick set_clock
       wait add_call add_joined add_cancelled add_observed add_submitted
       clear_sigint after_join after_failed_cancel] in H.

Ltac world_simpl :=
  repeat (progress (cbn [orb negb andb fst snd];
                    cbv beta iota;
                    autorewrite with world;
                    repeat match goal with
                           | H : is_cancelled _ _ = _ |- _ => rewrite H
                           end)).

(** What [_cancel_threads] does with the future at the head of its list,
    by the state the future is found in. *)
Lemma cancel_sweep_step f rest (cb : bool) acc w :
  cancel_sweep (f :: rest) cb acc w =
    if is_cancelled f w then (Raise CancelledError, tick (tick w))
    else if is_finished f w then
      match outcome (job f) with
      | inr e => (Raise (TaskError e), after_join f (tick (wait f (tick w))))
      | inl _ => cancel_sweep rest cb (acc ++ [f]) (tick (tick (wait f (tick w))))
      end
    else if is_finished f (tick w) then
      cancel_sweep rest cb (acc ++ [f]) (tick (tick w))
    else if is_pending f (tick (tick w)) then
      (Raise CancelledError, tick (tick (mark_cancelled f (tick (tick w)))))
    else
      match outcome (job f) with
      | inr e => (Raise (TaskError e), after_join f (after_failed_cancel cb w))
      | inl _ => cancel_sweep rest cb acc (after_join f (after_failed_cancel cb w))
      end.
Proof.
  unfold after_join, after_failed_cancel.
  cbn [cancel_sweep].
  unfold bind, done, exception, result, cancel, ret, call_callback_False.
  destruct (is_cancelled f w) eqn:Hc; world_simpl; [reflexivity|].
  destruct (is_finished f w) eqn:Hf; world_simpl.
  - destruct (outcome (job f)) as [v|e] eqn:Ho; world_simpl.
    + rewrite finished_after_wait. reflexivity.
    + reflexivity.
  - destruct (is_finished f (tick w)) eqn:Hf1; world_simpl; [reflexivity|].
    destruct (is_pending f (tick (tick w))) eqn:Hp; world_simpl.
    + rewrite is_cancelled_mark. reflexivity.
    + destruct cb; world_simpl; destruct (outcome (job f)); reflexivity.
Qed.

(** ** Sweeps that return *)

Lemma finished_mono f w w' :
  is_finished f w = true -> clock w <= clock w' -> is_finished f w' = true.
Proof.
  unfold is_finished. intros H Hle.
  apply Nat.leb_le in H. apply Nat.leb_le. lia.
Qed.

Lemma only_time_passed_trans w1 w2 w3 :
  only_time_passed w1 w2 -> only_time_passed w2 w3 -> only_time_passed w1 w3.
Proof.
  unfold only_time_passed. intuition (try congruence). lia.
Qed.

(** A sweep that returns has cancelled nothing; the futures it returns were
    found finished and are not cancelled. *)
Lemma cancel_sweep_returns l (cb : bool) acc w s w' :
  cancel_sweep l cb acc w = (Ret s, w') ->
  cancelled w' = cancelled w /\ clock w <= clock w' /\
  exists s', s = acc ++ s' /\ incl s' l /\
    Forall (fun g => is_cancelled g w = false /\ is_finished g w' = true) s'.
Proof.
  revert acc w. induction l as [|f l IH]; intros acc w.
  - cbn. unfold ret. intros H. inversion H; subst.
    repeat split; auto. exists []. rewrite app_nil_r.
    repeat split; auto. apply incl_nil_l.
  - rewrite cancel_sweep_step.
    destruct (is_cancelled f w) eqn:Hc; [discriminate|].
    assert (Hgrow : forall w1,
      cancelled w1 = cancelled w -> clock w <= clock w1 ->
      is_finished f w1 = true ->
      cancel_sweep l cb (acc ++ [f]) w1 = (Ret s, w') ->
      cancelled w' = cancelled w /\ clock w <= clock w' /\
      exists s', s = acc ++ s' /\ incl s' (f :: l) /\
        Forall (fun g => is_cancelled g w = false /\ is_finished g w' = true) s').
    { intros w1 Hcan Hclk Hfin H.
      apply IH in H. destruct H as (Hcan' & Hclk' & s' & -> & Hincl & Hall).
      split; [congruence|]. split; [lia|].
      exists (f :: s'). rewrite <- app_assoc. split; [reflexivity|].
      split.
      - intros g [->|Hg]; [now left|right; auto].
      - constructor.
        + split; [assumption|]. eapply finished_mono; eauto.
        + eapply Forall_impl; [|exact Hall].
          cbn beta. intros g [Hg1 Hg2]. split; [|assumption].
          unfold is_cancelled in *. rewrite <- Hcan. assumption. }
    destruct (is_finished f w) eqn:Hf.
    + destruct (outcome (job f)); [|discriminate].
      apply Hgrow; [reflexivity|cbn; lia|].
      eapply finished_mono; [exact Hf|cbn; lia].
    + destruct (is_finished f (tick w)) eqn:Hf1.
      * apply Hgrow; [reflexivity|cbn; lia|].
        eapply finished_mono; [exact Hf1|cbn; lia].
      * destruct (is_pending f (tick (tick w))); [discriminate|].
        destruct (outcome (job f)); [|discriminate].
        intros H. apply IH in H.
        destruct H as (Hcan' & Hclk' & s' & -> & Hincl & Hall).
        assert (Hcan : cancelled (after_join f (after_failed_cancel cb w)) = cancelled w)
          by (destruct cb; reflexivity).
        assert (Hclk : clock w <= clock (after_join f (after_failed_cancel cb w)))
          by (destruct cb; cbn; lia).
        split; [congruence|]. split; [lia|].
        exists s'. split; [reflexivity|]. split.
        -- intros g Hg. right. auto.
        -- eapply Forall_impl; [|exact Hall].
           cbn beta. intros g [Hg1 Hg2]. split; [|assumption].
           unfold is_cancelled in *. rewrite <- Hcan. assumption.
Qed.

(** What collecting the outcomes of futures that are not cancelled gives. *)
Lemma collect_gather l acc w :
  Forall (fun f => is_cancelled f w = false) l ->
  fst (collect l acc w) = gather l acc.
Proof.
  revert acc w. induction l as [|f l IH]; intros acc w Hall; [reflexivity|].
  inversion Hall as [|? ? Hf Hl]; subst.
  cbn [collect gather]. unfold bind, result. rewrite Hf.
  destruct (outcome (job f)); [|reflexivity].
  apply IH. eapply Forall_impl; [|exact Hl]. cbn beta. intros g Hg. exact Hg.
Qed.

(** Sweeping futures that have all finished: the sweep raises the first
    stored error, or returns them all; only time passes when it returns. *)
Lemma cancel_sweep_finished l (cb : bool) acc vs w :
  Forall (fun f => is_cancelled f w = false /\ is_finished f w = true) l ->
  match gather l vs with
  | Ret _ =>
      exists w', cancel_sweep l cb acc w = (Ret (acc ++ l), w') /\
                 only_time_passed w w'
  | Raise x => exists w', cancel_sweep l cb acc w = (Raise x, w')
  end.
Proof.
  revert acc vs w. induction l as [|f l IH]; intros acc vs w Hall.
  - cbn. exists w. rewrite app_nil_r. split; [reflexivity|].
    unfold only_time_passed. intuition.
  - inversion Hall as [|? ? [Hc Hf] Hl]; subst.
    rewrite cancel_sweep_step, Hc, Hf. cbn [gather].
    destruct (outcome (job f)) as [v|e]; [|eauto].
    set (w1 := tick (tick (wait f (tick w)))).
    assert (Hl1 : Forall (fun g => is_cancelled g w1 = false /\
                                   is_finished g w1 = true) l).
    { eapply Forall_impl; [|exact Hl]. cbn beta. intros g [Hg1 Hg2].
      split; [exact Hg1|]. eapply finished_mono; [exact Hg2|cbn; lia]. }
    specialize (IH (acc ++ [f]) (vs ++ [v]) w1 Hl1).
    destruct (gather l (vs ++ [v])); [|exact IH].
    destruct IH as (w' & E & Hw'). exists w'. rewrite <- app_assoc in E.
    split; [exact E|].
    eapply only_time_passed_trans; [|exact Hw'].
    unfold only_time_passed. cbn. intuition lia.
Qed.

(** ** The sweep, claim by claim *)

(** C8.  A future that is not done at either check and whose [cancel()]
    fails because the call has started: with a callback, the sweep calls it
    with [False], then blocks until the outcome of the future is there, and
    raises the error of the future if it failed (otherwise it goes on with
    the rest of the list). *)
Theorem failed_cancel_calls_back_then_joins f rest acc w :
  is_cancelled f w = false ->
  clock w + 1 < finish_at f ->
  start_at f <= clock w + 2 ->
  let w' := after_join f (after_failed_cancel true w) in
  calls w' = calls w ++ [CbFalse] /\
  is_finished f w' = true /\
  joined w' = joined w ++ [fid f] /\
  cancel_sweep (f :: rest) true acc w =
    match outcome (job f) with
    | inr e => (Raise (TaskError e), w')
    | inl _ => cancel_sweep rest true acc w'
    end.
Proof.
  intros Hc Hfin Hstart w'.
  repeat split.
  - unfold w', is_finished. wcbn. apply Nat.leb_le. lia.
  - rewrite cancel_sweep_step, Hc.
    assert (E1 : is_finished f w = false)
      by (unfold is_finished; apply Nat.leb_gt; lia).
    assert (E2 : is_finished f (tick w) = false)
      by (unfold is_finished; wcbn; apply Nat.leb_gt; lia).
    assert (E3 : is_pending f (tick (tick w)) = false)
      by (unfold is_pending; wcbn; apply Nat.ltb_ge; lia).
    rewrite E1, E2, E3. destruct (outcome (job f)); reflexivity.
Qed.

(** C10.  A pending future is cancelled and then awaited all the same:
    [result()] raises [CancelledError] out of the sweep, which stops there
    without touching the rest of the list; and no future that the sweep
    returns is a cancelled one. *)
Theorem cancelled_future_aborts_sweep f rest (cb : bool) acc w :
  (is_cancelled f w = false ->
   clock w + 2 < start_at f ->
   exists w',
     cancel_sweep (f :: rest) cb acc w = (Raise CancelledError, w') /\
     cancelled w' = cancelled w ++ [fid f] /\
     joined w' = joined w /\
     clock w' = clock w + 4) /\
  (forall s w',
     cancel_sweep (f :: rest) cb acc w = (Ret s, w') ->
     cancelled w' = cancelled w /\
     forall g, In g s -> In g acc \/ is_cancelled g w' = false).
Proof.
  split.
  - intros Hc Hp.
    exists (tick (tick (mark_cancelled f (tick (tick w))))).
    assert (E1 : is_finished f w = false).
    { unfold is_finished. apply Nat.leb_gt.
      pose proof (finish_after_start f). lia. }
    assert (E2 : is_finished f (tick w) = false).
    { unfold is_finished. wcbn. apply Nat.leb_gt.
      pose proof (finish_after_start f). lia. }
    assert (E3 : is_pending f (tick (tick w)) = true)
      by (unfold is_pending; wcbn; apply Nat.ltb_lt; lia).
    rewrite cancel_sweep_step, Hc, E1, E2, E3.
    split; [reflexivity|].
    unfold mark_cancelled.
    destruct (has_id (fid f) (observed (tick (tick w))));
      cbn; repeat split; lia.
  - intros s w' H. apply cancel_sweep_returns in H.
    destruct H as (Hcan & _ & s' & -> & _ & Hall).
    split; [exact Hcan|].
    intros g Hg. apply in_app_or in Hg. destruct Hg as [Hg|Hg]; [now left|].
    right. rewrite Forall_forall in Hall. destruct (Hall g Hg) as [Hgc _].
    unfold is_cancelled in *. rewrite Hcan. exact Hgc.
Qed.

Lemma gather_succeeds l vs :
  Forall (fun f => succeeds (job f)) l ->
  gather l vs = Ret (vs ++ values (map (@job value error) l)).
Proof.
  revert vs. induction l as [|f l IH]; intros vs Hall; cbn.
  - rewrite app_nil_r. reflexivity.
  - inversion Hall as [|? ? [v Hv] Hl]; subst.
    unfold returned. rewrite Hv. rewrite IH by assumption.
    rewrite <- app_assoc. reflexivity.
Qed.

(** A sweep over settled futures that returns found each of them finished
    with a value; it returns them all and only time has passed. *)
Lemma cancel_sweep_settled l (cb : bool) acc w s w' :
  Forall (settled w) l ->
  cancel_sweep l cb acc w = (Ret s, w') ->
  s = acc ++ l /\ only_time_passed w w' /\
  Forall (fun f => is_cancelled f w = false /\ is_finished f w = true /\
                   succeeds (job f)) l.
Proof.
  revert acc w. induction l as [|f l IH]; intros acc w Hall.
  - cbn. unfold ret. intros H. inversion H; subst.
    rewrite app_nil_r. unfold only_time_passed. intuition.
  - inversion Hall as [|? ? Hf Hl]; subst. unfold settled in Hf.
    rewrite cancel_sweep_step.
    destruct (is_cancelled f w) eqn:Hc; [discriminate|].
    cbn in Hf. rewrite Hf.
    destruct (outcome (job f)) as [v|e] eqn:Ho; [|discriminate].
    intros H. apply IH in H.
    + destruct H as (-> & Hw & Hall').
      rewrite <- app_assoc. split; [reflexivity|]. split.
      * eapply only_time_passed_trans; [|exact Hw].
        unfold only_time_passed. cbn. intuition lia.
      * constructor.
        -- repeat split; auto. exists v. exact Ho.
        -- rewrite Forall_forall in *. intros g Hg.
           destruct (Hall' g Hg) as (G1 & _ & G3).
           change (is_cancelled g w = false) in G1.
           specialize (Hl g Hg). unfold settled in Hl.
           rewrite G1 in Hl. auto.
    + eapply Forall_impl; [|exact Hl]. unfold settled. cbn beta.
      intros g Hg. apply orb_true_iff in Hg. apply orb_true_iff.
      destruct Hg as [Hg|Hg]; [left; exact Hg|right].
      eapply finished_mono; [exact Hg|cbn; lia].
Qed.

(** C6, as the code has it.  When every future is settled and the sweep
    returns, it returns the very list it was given, and sweeping what it
    returned gives that list again: both sweeps only let time pass -- no
    callback is called, no [result()] taken, nothing cancelled. *)
Theorem sweep_of_settled_futures_is_a_fixed_point l (cb : bool) w s w1 :
  Forall (settled w) l ->
  _cancel_threads l cb w = (Ret s, w1) ->
  s = l /\ only_time_passed w w1 /\
  exists w2, _cancel_threads s cb w1 = (Ret s, w2) /\ only_time_passed w1 w2.
Proof.
  unfold _cancel_threads. intros Hall H.
  apply cancel_sweep_settled in H; [|exact Hall].
  destruct H as (-> & Hw & Hok). cbn [app].
  split; [reflexivity|]. split; [exact Hw|].
  assert (Hfin : Forall (fun f => is_cancelled f w1 = false /\
                                  is_finished f w1 = true) l).
  { eapply Forall_impl; [|exact Hok]. cbn beta. intros g (G1 & G2 & _).
    destruct Hw as (_ & Hcan & _ & _ & _ & _ & Hclk). split.
    - unfold is_cancelled in *. rewrite Hcan. exact G1.
    - eapply finished_mono; eauto. }
  pose proof (cancel_sweep_finished l cb [] [] w1 Hfin) as H2.
  rewrite gather_succeeds in H2.
  - exact H2.
  - eapply Forall_impl; [|exact Hok]. cbn beta. tauto.
Qed.

(** ** The pool and the [try] statement, claim by claim *)

Lemma pool_created (methods : list (@method value error)) (mw : Z) w :
  methods <> [] \/ (0 < mw)%Z ->
  ThreadPoolExecutor
    (if (mw <=? 0)%Z then Z.of_nat (length methods) else mw) w = (Ret tt, w).
Proof.
  intros H. unfold ThreadPoolExecutor.
  destruct (mw <=? 0)%Z eqn:E.
  - destruct H as [H|H]; [|apply Z.leb_le in E; lia].
    destruct methods; [congruence|]. reflexivity.
  - rewrite E. reflexivity.
Qed.

(** C9.  With no callable and [max_workers <= 0] the worker count becomes
    [len(methods) = 0], and the constructor of the pool raises: the run
    does not return the empty list. *)
Theorem no_task_and_no_worker_count_raises (mw : Z) (cb : bool) w :
  (mw <= 0)%Z ->
  run_in_threads (@nil (@method value error)) mw cb w
    = Some (Raise ValueError, w).
Proof.
  intros Hle. unfold run_in_threads.
  assert (E : (mw <=? 0)%Z = true) by (apply Z.leb_le; exact Hle).
  rewrite E. reflexivity.
Qed.

(** ** The futures at the start of the [try] statement *)

Lemma submit_all_spec (methods : list (@method value error)) w :
  exists fs w0,
    submit_all methods w = (Ret fs, w0) /\
    map (@job value error) fs = methods /\
    map (@fid value error) fs = seq (length (submitted w)) (length methods) /\
    submitted w0 = submitted w ++ fs /\
    cancelled w0 = cancelled w /\ observed w0 = observed w /\
    calls w0 = calls w /\ joined w0 = joined w /\ sigint w0 = sigint w /\
    clock w0 = clock w + length methods.
Proof.
  revert w. induction methods as [|m ms IH]; intros w.
  - exists [], w. cbn. rewrite app_nil_r, Nat.add_0_r. unfold ret. intuition.
  - cbn [submit_all]. unfold bind at 1. unfold submit.
    set (f := {| fid := length (submitted w); job := m; born := clock w |}).
    destruct (IH (tick (add_submitted f w)))
      as (fs & w0 & E & Hjob & Hfid & Hsub & Hcan & Hobs & Hcalls & Hj & Hs & Hclk).
    exists (f :: fs), w0. unfold bind at 1. rewrite E. unfold ret.
    wcbn in Hfid. rewrite length_app in Hfid. cbn [length] in Hfid.
    rewrite Nat.add_1_r in Hfid.
    wcbn in Hsub. rewrite <- app_assoc in Hsub.
    wcbn in Hclk. subst f. cbn [map length seq fid job app] in *.
    repeat split; try assumption; try congruence; lia.
Qed.

Lemma register_all_spec l w :
  exists w0,
    register_all l w = (Ret tt, w0) /\
    submitted w0 = submitted w /\ cancelled w0 = cancelled w /\
    observed w0 = observed w ++ map (@fid value error) l /\
    calls w0 = calls w /\ joined w0 = joined w /\ sigint w0 = sigint w /\
    clock w0 = clock w + length l.
Proof.
  revert w. induction l as [|f l IH]; intros w.
  - exists w. cbn. rewrite app_nil_r, Nat.add_0_r. unfold ret. intuition.
  - cbn [register_all]. unfold bind, add_done_callback.
    destruct (IH (tick (add_observed (fid f) w)))
      as (w0 & E & Hsub & Hcan & Hobs & Hcalls & Hj & Hs & Hclk).
    exists w0. rewrite E.
    wcbn in Hobs. rewrite <- app_assoc in Hobs. wcbn in Hclk.
    repeat split; cbn [map length]; try assumption. lia.
Qed.

(** After [launch]: one future per callable, in order, with fresh ids; no
    future is cancelled, no callback called, no result taken. *)
Lemma launch_spec (methods : list (@method value error)) (cb : bool) w :
  exists fs w0,
    launch methods cb w = (Ret {| futures := fs; results := [] |}, w0) /\
    map (@job value error) fs = methods /\
    map (@fid value error) fs = seq (length (submitted w)) (length methods) /\
    submitted w0 = submitted w ++ fs /\
    cancelled w0 = cancelled w /\
    observed w0 = observed w ++ (if cb then map (@fid value error) fs else []) /\
    calls w0 = calls w /\ joined w0 = joined w /\ sigint w0 = sigint w.
Proof.
  destruct (submit_all_spec methods w)
    as (fs & w1 & E & Hjob & Hfid & Hsub & Hcan & Hobs & Hcalls & Hj & Hs & _).
  unfold launch, bind. rewrite E.
  destruct cb.
  - destruct (register_all_spec fs w1)
      as (w0 & E0 & Hsub0 & Hcan0 & Hobs0 & Hcalls0 & Hj0 & Hs0 & _).
    exists fs, w0. rewrite E0. unfold ret.
    repeat split; try congruence.
  - exists fs, w1. unfold ret. rewrite app_nil_r.
    repeat split; try congruence.
Qed.

(** ** What the polling loop leaves behind *)

Lemma polled_refl w : polled w w.
Proof. unfold polled. intuition. Qed.

Lemma polled_trans w1 w2 w3 : polled w1 w2 -> polled w2 w3 -> polled w1 w3.
Proof. unfold polled. intuition (try congruence). lia. Qed.

Lemma polled_tick w : polled w (tick w).
Proof. unfold polled. cbn. intuition. Qed.

Lemma polled_interrupt w : polled w (clear_sigint w).
Proof. unfold polled. cbn. intuition. Qed.

Lemma polled_join f w : polled w (after_join f w).
Proof. unfold polled. cbn. intuition lia. Qed.

Lemma sigint_pending_some w : sigint_pending w = true -> sigint w <> None.
Proof. unfold sigint_pending. destruct (sigint w); congruence. Qed.

Lemma not_cancelled_polled l w w' :
  polled w w' ->
  Forall (fun f => is_cancelled f w = false) l ->
  Forall (fun f => is_cancelled f w' = false) l.
Proof.
  intros (_ & Hcan & _) H. eapply Forall_impl; [|exact H]. cbn beta.
  intros g Hg. unfold is_cancelled in *. rewrite Hcan. exact Hg.
Qed.

Lemma any_not_done_spec l w r w' :
  any_not_done l w = (r, w') ->
  polled w w' /\ joined w' = joined w /\
  match r with
  | Ret false =>
      Forall (fun f => is_cancelled f w = false -> is_finished f w' = true) l
  | Ret true => True
  | Raise KeyboardInterrupt => sigint w <> None
  | Raise _ => False
  end.
Proof.
  revert w. induction l as [|x l IH]; intros w; cbn [any_not_done].
  - unfold ret. intros H. inversion H; subst.
    split; [apply polled_refl|]. split; [reflexivity|]. constructor.
  - unfold bind, interruptible.
    destruct (sigint_pending w) eqn:Hs.
    { intros H. inversion H; subst.
      split; [apply polled_interrupt|]. split; [reflexivity|].
      apply sigint_pending_some. exact Hs. }
    unfold done at 1.
    destruct (is_cancelled x w || is_finished x w) eqn:Hd; cbn [negb].
    + intros H. apply IH in H. destruct H as (Hp & Hj & Hr).
      split; [eapply polled_trans; [apply polled_tick|exact Hp]|].
      split; [exact Hj|].
      destruct r as [[|]|[e| | |]]; auto.
      constructor.
      * intros Hc. rewrite Hc in Hd. cbn in Hd.
        eapply finished_mono; [exact Hd|].
        destruct Hp as (_ & _ & _ & _ & Hclk & _). cbn in Hclk. lia.
      * exact Hr.
    + unfold ret. intros H. inversion H; subst.
      split; [apply polled_tick|]. split; [reflexivity|exact I].
Qed.

Lemma scan_spec l fr w r fr' w' :
  scan l fr w = (r, fr', w') ->
  Forall (fun f => is_cancelled f w = false) l ->
  polled w w' /\
  match r with
  | Ret false => fr' = fr
  | Ret true =>
      exists f v, In f l /\ outcome (job f) = inl v /\
        futures fr' = remove_future f (futures fr) /\
        results fr' = results fr ++ [v]
  | Raise (TaskError e) =>
      exists f, In f l /\ outcome (job f) = inr e /\
        futures fr' = remove_future f (futures fr) /\
        results fr' = results fr
  | Raise KeyboardInterrupt =>
      sigint w <> None /\
      (fr' = fr \/
       exists f, In f l /\ futures fr' = remove_future f (futures fr) /\
                 results fr' = results fr)
  | Raise _ => False
  end.
Proof.
  revert w. induction l as [|x l IH]; intros w; cbn [scan].
  - intros H _. inversion H; subst. split; [apply polled_refl|reflexivity].
  - intros H Hall. inversion Hall as [|? ? Hx Hl]; subst.
    unfold interruptible at 1 in H.
    destruct (sigint_pending w) eqn:Hs.
    { inversion H; subst. split; [apply polled_interrupt|].
      split; [apply sigint_pending_some; exact Hs|now left]. }
    unfold done in H. rewrite Hx in H. cbn [orb] in H.
    destruct (is_finished x w) eqn:Hf.
    + unfold interruptible in H.
      destruct (sigint_pending (tick w)) eqn:Hs1.
      { inversion H; subst.
        split; [eapply polled_trans;
                  [apply polled_tick|apply polled_interrupt]|].
        split; [apply sigint_pending_some in Hs1; exact Hs1|].
        right. exists x. cbn. auto. }
      unfold result in H.
      change (is_cancelled x (tick w)) with (is_cancelled x w) in H.
      rewrite Hx in H.
      assert (Hp : polled w (tick (add_joined (fid x) (wait x (tick w))))).
      { eapply polled_trans; [apply polled_tick|apply polled_join]. }
      destruct (outcome (job x)) as [v|e] eqn:Ho; inversion H; subst;
        (split; [exact Hp|]).
      * exists x, v. cbn. auto.
      * exists x. cbn. auto.
    + apply IH in H.
      2:{ eapply not_cancelled_polled; [apply polled_tick|exact Hl]. }
      destruct H as (Hp & Hr).
      split; [eapply polled_trans; [apply polled_tick|exact Hp]|].
      destruct r as [[|]|[e| | |]]; auto.
      * destruct Hr as (f & v & Hin & Hr). exists f, v. split; [now right|exact Hr].
      * destruct Hr as (f & Hin & Hr). exists f. split; [now right|exact Hr].
      * destruct Hr as (Hsig & Hr). split; [exact Hsig|].
        destruct Hr as [Hr|(f & Hin & Hr)]; [now left|].
        right. exists f. split; [now right|exact Hr].
Qed.

Lemma remove_future_incl f l : incl (remove_future f l) l.
Proof.
  induction l as [|x l IH]; cbn [remove_future]; [apply incl_refl|].
  destruct (fid x =? fid f).
  - apply incl_tl, incl_refl.
  - intros g [->|Hg]; [now left|right; auto].
Qed.

Lemma remove_future_perm f l :
  NoDup (map (@fid value error) l) -> In f l ->
  Permutation l (f :: remove_future f l) /\
  NoDup (map (@fid value error) (remove_future f l)).
Proof.
  induction l as [|x l IH]; cbn [In map remove_future]; [tauto|].
  intros Hnd Hin. inversion Hnd as [|? ? Hx Hl]; subst.
  destruct (fid x =? fid f) eqn:E.
  - apply Nat.eqb_eq in E.
    destruct Hin as [->|Hin].
    + split; [reflexivity|exact Hl].
    + exfalso. apply Hx. rewrite E. apply in_map. exact Hin.
  - destruct Hin as [->|Hin]; [rewrite Nat.eqb_refl in E; discriminate|].
    destruct (IH Hl Hin) as [Hp Hn]. split.
    + rewrite perm_swap. constructor. exact Hp.
    + cbn [map]. constructor; [|exact Hn].
      intros Hx'. apply Hx.
      apply in_map_iff in Hx'. destruct Hx' as (g & Hg & Hgin).
      rewrite <- Hg. apply in_map. apply (remove_future_incl f l g Hgin).
Qed.

Lemma values_app (a b : list (@method value error)) :
  values (a ++ b) = values a ++ values b.
Proof. unfold values. apply flat_map_app. Qed.

(** The polling loop, however it ends: the values appended to [results] are
    those of futures [cs] taken out of [futures], in the order in which they
    were taken; what is left in [futures], with [cs] and the futures lost,
    is what was there at the start. *)
Lemma polling_spec (fuel : nat) fr w r fr' w' :
  NoDup (map (@fid value error) (futures fr)) ->
  Forall (fun f => is_cancelled f w = false) (futures fr) ->
  polling fuel fr w = Some (r, fr', w') ->
  polled w w' /\
  (r = Raise KeyboardInterrupt -> sigint w <> None) /\
  (r = Ret tt -> Forall (fun f => is_finished f w' = true) (futures fr')) /\
  exists cs lost,
    Permutation (futures fr) (cs ++ lost ++ futures fr') /\
    Forall (fun c => succeeds (job c)) cs /\
    results fr' = results fr ++ values (map (@job value error) cs) /\
    lost_by r lost.
Proof.
  revert fr w. induction fuel as [|fuel IH]; intros fr w Hnd Hnc; [discriminate|].
  cbn [polling].
  destruct (any_not_done (futures fr) w) as [r1 w1] eqn:Hany.
  apply any_not_done_spec in Hany. destruct Hany as (Hp1 & _ & Hr1).
  pose proof (not_cancelled_polled _ _ _ Hp1 Hnc) as Hnc1.
  destruct r1 as [[|]|x].
  - (* some future is not done *)
    destruct (scan (futures fr) fr w1) as [[r2 fr2] w2] eqn:Hscan.
    apply scan_spec in Hscan; [|exact Hnc1].
    destruct Hscan as (Hp2 & Hr2).
    pose proof (polled_trans _ _ _ Hp1 Hp2) as Hp12.
    destruct r2 as [[|]|x].
    + (* one future was taken *)
      destruct Hr2 as (f & v & Hin & Ho & Hfut & Hres).
      destruct (remove_future_perm _ _ Hnd Hin) as [Hperm Hnd2].
      intros H. apply IH in H.
      * destruct H as (Hp & Hki & Hfin & cs & lost & Hpm & Hok & Hrs & Hlost).
        split; [eapply polled_trans; eauto|].
        split.
        { intros E. specialize (Hki E). intros Hn. apply Hki.
          destruct Hp12 as (_ & _ & _ & _ & _ & Hs). auto. }
        split; [exact Hfin|].
        exists (f :: cs), lost. repeat split.
        -- rewrite Hperm. cbn [app]. constructor.
           rewrite <- Hfut. exact Hpm.
        -- constructor; [exists v; exact Ho|exact Hok].
        -- rewrite Hrs, Hres. cbn [map]. unfold values at 2.
           cbn [flat_map]. fold (values (map (@job value error) cs)).
           unfold returned. rewrite Ho. rewrite <- app_assoc. reflexivity.
        -- exact Hlost.
      * rewrite Hfut. exact Hnd2.
      * rewrite Hfut.
        apply (not_cancelled_polled _ w w2 Hp12).
        rewrite Forall_forall in *. intros g Hg. apply Hnc.
        apply (remove_future_incl f _ g Hg).
    + (* nothing changed: sleep *)
      subst fr2. unfold interruptible.
      destruct (sigint_pending w2) eqn:Hs2.
      * intros H. inversion H; subst.
        split; [eapply polled_trans; [exact Hp12|apply polled_interrupt]|].
        split.
        { intros _ Hn. apply sigint_pending_some in Hs2. apply Hs2.
          destruct Hp12 as (_ & _ & _ & _ & _ & Hs). auto. }
        split; [discriminate|].
        exists [], []. cbn. rewrite app_nil_r.
        repeat split; auto.
      * unfold sleep. intros H. apply IH in H; [|exact Hnd|].
        -- destruct H as (Hp & Hki & Hfin & cs & lost & Hpm & Hok & Hrs & Hlost).
           pose proof (polled_trans _ _ _ Hp12 (polled_tick w2)) as Hp3.
           split; [eapply polled_trans; eauto|].
           split.
           { intros E. specialize (Hki E). intros Hn. apply Hki.
             destruct Hp3 as (_ & _ & _ & _ & _ & Hs). auto. }
           split; [exact Hfin|].
           exists cs, lost. auto.
        -- apply (not_cancelled_polled _ w (tick w2)); [|exact Hnc].
           eapply polled_trans; [exact Hp12|apply polled_tick].
    + (* the scan raised *)
      intros H. inversion H; subst.
      split; [exact Hp12|].
      split.
      { intros E. inversion E; subst x.
        destruct Hr2 as [Hs2 _]. intros Hn. apply Hs2.
        destruct Hp1 as (_ & _ & _ & _ & _ & Hs). auto. }
      split; [discriminate|].
      destruct x as [e| | |].
      * destruct Hr2 as (f & Hin & Ho & Hfut & Hres).
        destruct (remove_future_perm _ _ Hnd Hin) as [Hperm _].
        exists [], [f]. cbn. rewrite app_nil_r, Hfut.
        repeat split; auto. exists f. auto.
      * contradiction.
      * destruct Hr2 as [_ [->|(f & Hin & Hfut & Hres)]].
        -- exists [], []. cbn. rewrite app_nil_r. repeat split; auto.
        -- destruct (remove_future_perm _ _ Hnd Hin) as [Hperm _].
           exists [], [f]. cbn. rewrite app_nil_r, Hfut. repeat split; auto.
      * contradiction.
  - (* every future is done: the loop ends *)
    intros H. inversion H; subst.
    split; [exact Hp1|]. split; [discriminate|].
    split.
    { intros _. rewrite Forall_forall in *. intros g Hg.
      apply (Hr1 g Hg). apply Hnc. exact Hg. }
    exists [], []. cbn. rewrite app_nil_r. repeat split; auto.
  - (* CTRL+C during [any] *)
    intros H. inversion H; subst.
    split; [exact Hp1|].
    destruct x as [e| | |]; try contradiction.
    split; [intros _; exact Hr1|]. split; [discriminate|].
    exists [], []. cbn. rewrite app_nil_r. repeat split; auto.
Qed.

(** ** Leaving the pool *)

Lemma shutdown_fold l w :
  only_time_passed w
    (fold_left (fun w' f => if is_cancelled f w' then w' else wait f w') l w).
Proof.
  revert w. induction l as [|f l IH]; intros w; cbn [fold_left].
  - unfold only_time_passed. intuition.
  - eapply only_time_passed_trans; [|apply IH].
    destruct (is_cancelled f w); unfold only_time_passed; cbn; intuition lia.
Qed.

Lemma shutdown_only_time w : only_time_passed w (shutdown w).
Proof. apply shutdown_fold. Qed.

Lemma not_cancelled_later l w w' :
  cancelled w' = cancelled w ->
  Forall (fun f => is_cancelled f w = false) l ->
  Forall (fun f => is_cancelled f w' = false) l.
Proof.
  intros Hcan H. eapply Forall_impl; [|exact H]. cbn beta.
  intros g Hg. unfold is_cancelled in *. rewrite Hcan. exact Hg.
Qed.

Lemma collect_result l acc w :
  Forall (fun f => is_cancelled f w = false) l ->
  exists w', collect l acc w = (gather l acc, w').
Proof.
  intros H. pose proof (collect_gather l acc w H) as E.
  destruct (collect l acc w) as [r w']. cbn in E. subst r. eauto.
Qed.

(** The end of a run whose remaining futures have all finished: the sweep
    of [finally] and the last loop amount to [gather]. *)
Lemma finish_with_finished_futures (cb : bool) l vs w :
  Forall (fun f => is_cancelled f w = false /\ is_finished f w = true) l ->
  exists w',
    match finalize cb (Ret tt, {| futures := l; results := vs |}, w) with
    | (Raise x, _, w2) => (Raise x, w2)
    | (Ret _, fr', w2) => collect (futures fr') (results fr') w2
    end = (gather l vs, w').
Proof.
  intros Hall. unfold finalize, _cancel_threads. cbn [futures results].
  pose proof (cancel_sweep_finished l cb [] vs w Hall) as H.
  destruct (gather l vs) as [rs|x] eqn:G.
  - destruct H as (w2 & E & Hw). rewrite E. cbn [app futures results].
    destruct (collect_result l vs w2) as (w3 & E3).
    + destruct Hw as (_ & Hcan & _).
      apply (not_cancelled_later l w w2 Hcan).
      eapply Forall_impl; [|exact Hall]. cbn beta. tauto.
    + exists w3. rewrite E3, G. reflexivity.
  - destruct H as (w2 & E). rewrite E. eauto.
Qed.

Lemma values_length (ms : list (@method value error)) :
  Forall succeeds ms -> length (values ms) = length ms.
Proof.
  induction 1 as [|m ms [v Hv] _ IH]; [reflexivity|].
  unfold values in *. cbn [flat_map]. rewrite length_app, IH.
  unfold returned. rewrite Hv. reflexivity.
Qed.

Lemma any_not_done_all_done l w :
  sigint w = None ->
  Forall (fun f => is_finished f w = true) l ->
  exists w1, any_not_done l w = (Ret false, w1).
Proof.
  revert w. induction l as [|x l IH]; intros w Hs Hall; cbn [any_not_done].
  - unfold ret. eauto.
  - inversion Hall as [|? ? Hx Hl]; subst.
    unfold bind, interruptible, sigint_pending. rewrite Hs.
    unfold done. rewrite Hx, orb_true_r. cbn [negb].
    apply IH; [exact Hs|].
    eapply Forall_impl; [|exact Hl]. cbn beta. intros g Hg.
    eapply finished_mono; [exact Hg|cbn; lia].
Qed.

Lemma boot_launch (methods : list (@method value error)) (cb : bool)
    (sig : option nat) fr w0 :
  launch methods cb (boot sig) = (Ret fr, w0) ->
  map (@job value error) (futures fr) = methods /\
  results fr = [] /\
  NoDup (map (@fid value error) (futures fr)) /\
  Forall (fun f => is_cancelled f w0 = false) (futures fr) /\
  sigint w0 = sig.
Proof.
  intros H.
  destruct (launch_spec methods cb (boot sig))
    as (fs & w0' & E & Hjob & Hfid & _ & Hcan & _ & _ & _ & Hs).
  rewrite H in E. inversion E; subst. cbn [futures results].
  repeat split; auto.
  - rewrite Hfid. apply seq_NoDup.
  - apply Forall_forall. intros g _. unfold is_cancelled.
    rewrite Hcan. reflexivity.
Qed.

(** ** The runner, claim by claim *)

(** C3, as the code has it.  A CTRL+C seen by the polling loop is caught and
    answered by the sweep of the handler.  The run raises when that sweep
    raises; when the sweep returns futures, the run ends as taking their
    outcomes in order does: it returns the results collected before the
    interrupt followed by theirs, or raises the first error among them.
    The outcomes of the futures the sweep had to wait for are dropped. *)
Theorem interrupt_is_answered_by_the_sweep
    (methods : list (@method value error)) (mw : Z) (cb : bool)
    w fr w0 fr1 w1 :
  methods <> [] \/ (0 < mw)%Z ->
  launch methods cb w = (Ret fr, w0) ->
  polling (polling_fuel fr w0) fr w0
    = Some (Raise KeyboardInterrupt, fr1, w1) ->
  match _cancel_threads (futures fr1) cb w1 with
  | (Raise x, _) => raises (run_in_threads methods mw cb w)
  | (Ret fs, _) =>
      exists w', run_in_threads methods mw cb w
                   = Some (gather fs (results fr1), w')
  end.
Proof.
  intros Hpool Hlaunch Hpoll.
  unfold raises, run_in_threads. rewrite pool_created by exact Hpool.
  unfold pool_block. rewrite Hlaunch.
  unfold guarded. rewrite Hpoll. cbn [on_interrupt].
  destruct (_cancel_threads (futures fr1) cb w1) as [[fs|x] w2] eqn:Hsweep.
  - unfold _cancel_threads in Hsweep.
    apply cancel_sweep_returns in Hsweep.
    destruct Hsweep as (Hcan & Hclk & s' & -> & _ & Hall). cbn [app] in *.
    pose proof (shutdown_only_time w2) as (_ & Hcan2 & _ & _ & _ & _ & Hclk2).
    assert (Hall2 : Forall (fun f => is_cancelled f (shutdown w2) = false /\
                                     is_finished f (shutdown w2) = true) s').
    { eapply Forall_impl; [|exact Hall]. cbn beta. intros g [G1 G2]. split.
      - unfold is_cancelled in *. rewrite Hcan2, Hcan. exact G1.
      - eapply finished_mono; eauto. }
    destruct (finish_with_finished_futures cb s' (results fr1) _ Hall2)
      as (w3 & E).
    destruct (finalize cb
                (Ret tt, {| futures := s'; results := results fr1 |},
                 shutdown w2)) as [[[[]|x] fr2] w4].
    + rewrite E. eauto.
    + injection E as E1 _. rewrite <- E1. eauto.
  - unfold finalize.
    destruct (_cancel_threads (futures fr1) cb w2) as [[fs|x'] w3]; eauto.
Qed.


(** ** The calls of the callback *)

Lemma calls_with_future_app (i : nat) (a b : list cb_arg) :
  calls_with_future i (a ++ b) = calls_with_future i a + calls_with_future i b.
Proof. unfold calls_with_future. rewrite filter_app, length_app. reflexivity. Qed.

Lemma kept_refl w : kept w w.
Proof. unfold kept. intuition. Qed.

Lemma kept_trans w1 w2 w3 : kept w1 w2 -> kept w2 w3 -> kept w1 w3.
Proof. unfold kept. intuition (try congruence). lia. Qed.

Lemma kept_time w w' : only_time_passed w w' -> kept w w'.
Proof.
  intros (Hsub & Hcan & Hobs & Hcalls & _ & _ & Hclk).
  unfold kept, tidy, registrations. repeat split; auto.
  intros H i. rewrite Hcalls, Hobs, Hcan. apply H.
Qed.

Lemma kept_polled w w' : polled w w' -> kept w w'.
Proof.
  intros (Hsub & Hcan & Hobs & Hcalls & Hclk & _).
  unfold kept, tidy, registrations. repeat split; auto.
  intros H i. rewrite Hcalls, Hobs, Hcan. apply H.
Qed.

Lemma kept_tick w : kept w (tick w).
Proof. apply kept_polled, polled_tick. Qed.

Lemma kept_join f w : kept w (after_join f w).
Proof. apply kept_polled, polled_join. Qed.

Lemma kept_false w : kept w (add_call CbFalse w).
Proof.
  unfold kept, tidy, registrations.
  cbn [submitted observed clock calls cancelled add_call].
  repeat split; auto.
  intros H i. rewrite calls_with_future_app, H. cbn. lia.
Qed.

Lemma calls_with_future_repeat (i j n : nat) :
  calls_with_future i (repeat (CbFuture j) n) = if i =? j then n else 0.
Proof.
  unfold calls_with_future. rewrite (Nat.eqb_sym i j).
  induction n as [|n IH]; cbn [repeat filter].
  - destruct (j =? i); reflexivity.
  - destruct (j =? i); cbn [length]; [rewrite IH; reflexivity|exact IH].
Qed.

Lemma kept_mark f w : is_cancelled f w = false -> kept w (mark_cancelled f w).
Proof.
  unfold is_cancelled. intros Hc.
  unfold kept. repeat split; auto.
  unfold tidy. intros H i. rewrite cancelled_mark, has_id_app.
  specialize (H i).
  assert (Hsingle : has_id i [fid f] = (i =? fid f))
    by (unfold has_id; cbn [existsb]; apply orb_false_r).
  assert (Hreg : registrations i (mark_cancelled f w) = registrations i w)
    by reflexivity.
  assert (Hcalls : calls_with_future i (calls (mark_cancelled f w)) =
                   calls_with_future i (calls w) +
                   (if i =? fid f then registrations (fid f) w else 0)).
  { unfold mark_cancelled. cbn [calls add_calls add_cancelled].
    rewrite calls_with_future_app, calls_with_future_repeat. reflexivity. }
  rewrite Hcalls, Hreg, H, Hsingle.
  destruct (i =? fid f) eqn:E.
  - apply Nat.eqb_eq in E. subst i. rewrite Hc. reflexivity.
  - rewrite orb_false_r. lia.
Qed.

Lemma kept_failed_cancel (cb : bool) w : kept w (after_failed_cancel cb w).
Proof.
  unfold after_failed_cancel.
  assert (H3 : kept w (tick (tick (tick w)))).
  { eapply kept_trans; [apply kept_tick|].
    eapply kept_trans; apply kept_tick. }
  destruct cb; [|exact H3].
  eapply kept_trans; [exact H3|].
  eapply kept_trans; [apply kept_false|apply kept_tick].
Qed.

Lemma kept_wait f w : kept w (wait f w).
Proof. apply kept_time. unfold only_time_passed. cbn. intuition lia. Qed.

(** Whatever the sweep does, the calls stay in line with the cancellations. *)
Lemma cancel_sweep_kept l (cb : bool) acc w r w' :
  cancel_sweep l cb acc w = (r, w') -> kept w w'.
Proof.
  revert acc w. induction l as [|f l IH]; intros acc w.
  - cbn. unfold ret. intros H. inversion H. apply kept_refl.
  - rewrite cancel_sweep_step.
    assert (K2 : kept w (tick (tick w)))
      by (eapply kept_trans; apply kept_tick).
    assert (K3 : kept w (tick (wait f (tick w)))).
    { eapply kept_trans; [apply kept_tick|].
      eapply kept_trans; [apply kept_wait|apply kept_tick]. }
    destruct (is_cancelled f w) eqn:Hc.
    { intros H. inversion H; subst. exact K2. }
    destruct (is_finished f w).
    { destruct (outcome (job f)); intros H.
      - apply IH in H. eapply kept_trans; [|exact H].
        eapply kept_trans; [exact K3|apply kept_tick].
      - inversion H; subst.
        eapply kept_trans; [exact K3|apply kept_join]. }
    destruct (is_finished f (tick w)).
    { intros H. apply IH in H. eapply kept_trans; [exact K2|exact H]. }
    destruct (is_pending f (tick (tick w))).
    { intros H. inversion H; subst.
      eapply kept_trans; [exact K2|].
      eapply kept_trans; [apply kept_mark; exact Hc|].
      eapply kept_trans; apply kept_tick. }
    assert (K4 : kept w (after_join f (after_failed_cancel cb w)))
      by (eapply kept_trans; [apply kept_failed_cancel|apply kept_join]).
    destruct (outcome (job f)); intros H.
    + apply IH in H. eapply kept_trans; [exact K4|exact H].
    + inversion H; subst. exact K4.
Qed.

Lemma collect_kept l acc w r w' : collect l acc w = (r, w') -> kept w w'.
Proof.
  revert acc w. induction l as [|f l IH]; intros acc w; cbn [collect].
  - unfold ret. intros H. inversion H. apply kept_refl.
  - unfold bind, result.
    destruct (is_cancelled f w).
    + intros H. inversion H. apply kept_tick.
    + destruct (outcome (job f)); intros H.
      * apply IH in H. eapply kept_trans; [apply (kept_join f w)|exact H].
      * inversion H. apply (kept_join f w).
Qed.

Lemma on_interrupt_kept (cb : bool) r fr w r' fr' w' :
  on_interrupt cb (r, fr, w) = (r', fr', w') -> kept w w'.
Proof.
  unfold on_interrupt, _cancel_threads.
  destruct r as [u|[e| | |]]; try (intros H; inversion H; apply kept_refl).
  destruct (cancel_sweep (futures fr) cb [] w) as [[fs|x] w1] eqn:E;
    apply cancel_sweep_kept in E; intros H; inversion H; subst.
  - eapply kept_trans; [exact E|apply kept_time, shutdown_only_time].
  - exact E.
Qed.

Lemma finalize_kept (cb : bool) r fr w r' fr' w' :
  finalize cb (r, fr, w) = (r', fr', w') -> kept w w'.
Proof.
  unfold finalize, _cancel_threads.
  destruct (cancel_sweep (futures fr) cb [] w) as [[fs|x] w1] eqn:E;
    apply cancel_sweep_kept in E; intros H; inversion H; subst; exact E.
Qed.

(** When the pool is left, every future that was not cancelled has finished. *)
Lemma shutdown_waits_fold l w f :
  In f l -> is_cancelled f w = false ->
  is_finished f
    (fold_left (fun w' g => if is_cancelled g w' then w' else wait g w') l w)
    = true.
Proof.
  revert w. induction l as [|x l IH]; intros w; cbn [In fold_left]; [tauto|].
  intros [->|Hin] Hc.
  - rewrite Hc. eapply finished_mono.
    + apply (finished_later f (wait f w) (clock (wait f w))).
      * unfold is_finished. cbn. apply Nat.leb_le. lia.
      * lia.
    + pose proof (shutdown_fold l (set_clock (clock (wait f w)) (wait f w)))
        as (_ & _ & _ & _ & _ & _ & Hclk).
      exact Hclk.
  - apply IH; [exact Hin|]. destruct (is_cancelled x w); exact Hc.
Qed.

Lemma shutdown_waits w f :
  In f (submitted w) -> is_cancelled f w = false ->
  is_finished f (shutdown w) = true.
Proof. apply shutdown_waits_fold. Qed.

Lemma calls_from_workers (calls_of : @future value error -> list cb_arg)
    (n : @future value error -> nat) l f :
  (forall g, calls_with_future (fid f) (calls_of g) =
             if fid f =? fid g then n g else 0) ->
  NoDup (map (@fid value error) l) -> In f l ->
  calls_with_future (fid f) (flat_map calls_of l) = n f.
Proof.
  intros Hcount.
  induction l as [|x l IH]; cbn [In map flat_map]; [tauto|].
  intros Hnd Hin. inversion Hnd as [|? ? Hx Hl]; subst.
  assert (Hother : forall g, In g l -> (fid g =? fid x) = false).
  { intros g Hg. apply Nat.eqb_neq. intros E. apply Hx. rewrite <- E.
    apply in_map. exact Hg. }
  rewrite calls_with_future_app, Hcount.
  destruct Hin as [->|Hin].
  - rewrite Nat.eqb_refl.
    assert (Hzero : calls_with_future (fid f) (flat_map calls_of l) = 0).
    { clear IH Hnd Hl. induction l as [|y l IHl]; [reflexivity|].
      cbn [flat_map]. rewrite calls_with_future_app, Hcount.
      rewrite (Nat.eqb_sym (fid f) (fid y)), (Hother y) by (now left).
      apply IHl.
      - intros Hx'. apply Hx. cbn [map]. now right.
      - intros g Hg. apply Hother. now right. }
    rewrite Hzero. lia.
  - rewrite (Hother f Hin). apply (IH Hl Hin).
Qed.

Lemma has_id_in (i : nat) (l : list nat) : In i l -> has_id i l = true.
Proof.
  intros H. unfold has_id. apply existsb_exists. exists i.
  split; [exact H|apply Nat.eqb_refl].
Qed.

(** Once the pool is left, each submitted future was given to the callback
    once for each registration: by [cancel()], or by the worker that ran
    it. *)
Lemma calls_per_registration w0 wz f :
  kept w0 wz -> tidy w0 ->
  NoDup (map (@fid value error) (submitted w0)) ->
  In f (submitted w0) ->
  calls_with_future (fid f) (invocations (shutdown wz)) =
    registrations (fid f) w0.
Proof.
  intros Hk Ht Hnd Hin.
  pose proof (kept_trans _ _ _ Hk (kept_time _ _ (shutdown_only_time wz)))
    as (Hsub & Hob & _ & Htidy).
  specialize (Htidy Ht (fid f)).
  destruct Hk as (Hsubz & _).
  pose proof (shutdown_only_time wz) as (_ & Hcan & _).
  assert (Hreg : forall i, registrations i (shutdown wz) = registrations i w0)
    by (intros i; unfold registrations; rewrite Hob; reflexivity).
  unfold invocations. rewrite calls_with_future_app, Htidy.
  rewrite (calls_from_workers (worker_calls (shutdown wz))
             (fun g => if fired_by_worker (shutdown wz) g
                       then registrations (fid g) (shutdown wz) else 0)).
  - unfold fired_by_worker. rewrite !Hreg.
    destruct (is_cancelled f (shutdown wz)) eqn:Hc.
    + unfold is_cancelled in Hc. rewrite Hc. cbn [negb andb]. lia.
    + unfold is_cancelled in Hc. rewrite Hc. cbn [negb andb].
      rewrite shutdown_waits; [reflexivity| |].
      * rewrite Hsubz. exact Hin.
      * unfold is_cancelled. rewrite <- Hcan. exact Hc.
  - intros g. unfold worker_calls.
    destruct (fired_by_worker (shutdown wz) g).
    + apply calls_with_future_repeat.
    + destruct (fid f =? fid g); reflexivity.
  - rewrite Hsub. exact Hnd.
  - rewrite Hsub. exact Hin.
Qed.

(** C5, as the code has it.  With a callback, in a run that CTRL+C reaches
    inside the polling loop or not at all, by the end of the run the
    callback was called exactly once with each submitted future: none is
    given to it twice and none is missed.  Each future is registered once
    (lines 215-217) and calls back once per registration, from [cancel()] or
    from the worker that ran it.  The calls with [False] made by the sweep
    come on top of these. *)
Theorem callback_gets_each_future_once
    (methods : list (@method value error)) (mw : Z) (sig : option nat) r w' :
  interrupt_inside_loop methods true sig w' ->
  run_in_threads methods mw true (boot sig) = Some (r, w') ->
  forall i, i < length methods ->
    calls_with_future i (invocations w') = 1.
Proof.
  intros _ H i Hi.
  assert (Hne : methods <> []) by (intros ->; cbn in Hi; lia).
  unfold run_in_threads in H. rewrite pool_created in H by (left; exact Hne).
  unfold pool_block in H.
  destruct (launch_spec methods true (boot sig))
    as (fs & w0 & E & Hjob & Hfid & Hsub & Hcan & Hobs & Hcalls & _ & _).
  cbn [boot submitted observed cancelled calls app length] in *.
  rewrite E in H.
  assert (Hnd : NoDup (map (@fid value error) fs))
    by (rewrite Hfid; apply seq_NoDup).
  assert (Hnc : Forall (fun f => is_cancelled f w0 = false) fs).
  { apply Forall_forall. intros g _. unfold is_cancelled.
    rewrite Hcan. reflexivity. }
  assert (Ht : tidy w0).
  { intros j. rewrite Hcalls, Hcan. reflexivity. }
  assert (Hf : exists f, In f fs /\ fid f = i).
  { assert (Hi' : In i (map (@fid value error) fs))
      by (rewrite Hfid; apply in_seq; lia).
    apply in_map_iff in Hi'. destruct Hi' as (f & Hfi & Hfin). eauto. }
  destruct Hf as (f & Hfin & <-).
  assert (Honce : registrations (fid f) w0 = 1).
  { unfold registrations. rewrite Hobs.
    apply (proj1 (NoDup_count_occ' Nat.eq_dec _) Hnd).
    apply in_map. exact Hfin. }
  assert (Hend : forall wz, kept w0 wz ->
            calls_with_future (fid f) (invocations (shutdown wz)) = 1).
  { intros wz Hk. rewrite <- Honce.
    apply (calls_per_registration w0 wz f Hk Ht).
    - rewrite Hsub. exact Hnd.
    - rewrite Hsub. exact Hfin. }
  unfold guarded in H.
  destruct (polling _ _ w0) as [[[r1 fr1] w1]|] eqn:Hpoll; [|discriminate].
  apply polling_spec in Hpoll; [|exact Hnd|exact Hnc].
  destruct Hpoll as (Hp & _). apply kept_polled in Hp.
  destruct (on_interrupt true (r1, fr1, w1)) as [[r2 fr2] w2] eqn:Hint.
  apply on_interrupt_kept in Hint.
  destruct (finalize true (r2, fr2, w2)) as [[r3 fr3] w3] eqn:Hfinal.
  apply finalize_kept in Hfinal.
  pose proof (kept_trans _ _ _ Hp (kept_trans _ _ _ Hint Hfinal)) as K3.
  destruct r3 as [u|x].
  - destruct (collect (futures fr3) (results fr3) w3) as [r4 w4] eqn:Hcol.
    apply collect_kept in Hcol.
    inversion H; subst. apply Hend. eapply kept_trans; [exact K3|exact Hcol].
  - inversion H; subst. apply Hend. exact K3.
Qed.

End Properties.

(** * The claims on sample runs *)

Module Checks.

Import Sample.

(** A future that started at time 0 and fails at time 50, swept at time 3. *)
Lemma failed_cancel_calls_back_then_joins_witness :
  cancel_sweep [handle 0 (inr 7) 0 50] true [] (at_time 3)
    = (Raise (TaskError 7),
       after_join (handle 0 (inr 7) 0 50) (after_failed_cancel true (at_time 3))).
Proof.
  refine (proj2 (proj2 (proj2
    (@failed_cancel_calls_back_then_joins nat nat
       (handle 0 (inr 7) 0 50) [] [] (at_time 3) _ _ _)))).
  - reflexivity.
  - cbn. lia.
  - cbn. lia.
Defined.

(** A future still queued until time 50, swept at time 3 ahead of a finished
    one. *)
Lemma cancelled_future_aborts_sweep_witness :
  exists w',
    cancel_sweep [handle 0 (inl 7) 50 50; handle 1 (inl 8) 0 0] true []
      (at_time 3) = (Raise CancelledError, w') /\
    cancelled w' = [0] /\ joined w' = [] /\ clock w' = 7.
Proof.
  refine (proj1 (@cancelled_future_aborts_sweep nat nat
            (handle 0 (inl 7) 50 50) [handle 1 (inl 8) 0 0] true []
            (at_time 3)) _ _).
  - reflexivity.
  - cbn. lia.
Defined.

(** One future that finished with a value, swept twice. *)
Lemma sweep_of_settled_futures_is_a_fixed_point_witness :
  exists w1 w2,
    _cancel_threads [handle 0 (inl 7) 0 1] true (at_time 3)
      = (Ret [handle 0 (inl 7) 0 1], w1) /\
    _cancel_threads [handle 0 (inl 7) 0 1] true w1
      = (Ret [handle 0 (inl 7) 0 1], w2) /\
    only_time_passed w1 w2.
Proof.
  eexists.
  assert (H1 : Forall (settled (at_time 3)) [handle 0 (inl 7) 0 1])
    by (repeat constructor).
  destruct (@sweep_of_settled_futures_is_a_fixed_point nat nat
              [handle 0 (inl 7) 0 1] true (at_time 3) _ _ H1 eq_refl)
    as (_ & _ & w2 & H2 & H3).
  exists w2. split; [reflexivity|]. split; [exact H2|exact H3].
Defined.

(** C6 as stated fails: the second sweep returns the settled future again,
    not the empty list. *)
Lemma second_sweep_is_not_empty :
  exists s w1 w2,
    Forall (settled (at_time 3)) [handle 0 (inl 7) 0 1] /\
    _cancel_threads [handle 0 (inl 7) 0 1] true (at_time 3) = (Ret s, w1) /\
    _cancel_threads s true w1 = (Ret s, w2) /\
    s <> [].
Proof.
  do 3 eexists. split; [repeat constructor|].
  split; [reflexivity|]. split; [reflexivity|]. discriminate.
Qed.

(** C2 as stated fails: with [max_workers = -1] the callable is run and its
    result returned. *)
Lemma negative_max_workers_is_not_rejected :
  returns (run_in_threads one_slow (-1) false (boot None)) [10] /\
  ~ raises (run_in_threads one_slow (-1) false (boot None)).
Proof.
  split.
  - eexists. vm_compute. reflexivity.
  - intros (x & w & H). vm_compute in H. discriminate.
Qed.

(** No callable and the default [max_workers]. *)
Lemma no_task_and_no_worker_count_raises_witness :
  run_in_threads (@nil (@method nat nat)) 0 false (boot None)
    = Some (Raise ValueError, boot None).
Proof.
  apply (@no_task_and_no_worker_count_raises nat nat 0%Z false (boot None)).
  discriminate.
Defined.

(** C1 as stated fails: the callable submitted second finishes first and its
    result comes first in the list. *)
Lemma results_follow_detection_order :
  Forall succeeds slow_then_fast /\
  values slow_then_fast = [10; 20] /\
  returns (run_in_threads slow_then_fast 0 false (boot None)) [20; 10] /\
  ~ returns (run_in_threads slow_then_fast 0 false (boot None)) [10; 20].
Proof.
  split; [repeat constructor; eexists; reflexivity|].
  split; [reflexivity|].
  split.
  - eexists. vm_compute. reflexivity.
  - intros (w & H). vm_compute in H. discriminate.
Qed.

(** C3 as stated fails: CTRL+C comes while the first callable is running and
    after the result of the second was taken; the run does not raise, it
    returns the list with that one result. *)
Lemma interrupted_run_returns_partial_list :
  exists fr w0 fr1 w1,
    launch slow_then_fast false (boot (Some 10)) = (Ret fr, w0) /\
    polling (polling_fuel fr w0) fr w0
      = Some (Raise KeyboardInterrupt, fr1, w1) /\
    returns (run_in_threads slow_then_fast 0 false (boot (Some 10))) [20] /\
    ~ raises (run_in_threads slow_then_fast 0 false (boot (Some 10))).
Proof.
  do 4 eexists.
  split; [vm_compute; reflexivity|].
  split; [vm_compute; reflexivity|].
  split.
  - eexists. vm_compute. reflexivity.
  - intros (x & w & H). vm_compute in H. discriminate.
Qed.

(** The same run, through the theorem: the sweep of the handler returns and
    the run returns what was collected. *)
Lemma interrupt_is_answered_by_the_sweep_witness :
  exists w',
    run_in_threads slow_then_fast 0 false (boot (Some 10))
      = Some (Ret [20], w').
Proof.
  assert (Hpool : slow_then_fast <> [] \/ (0 < 0)%Z) by (left; discriminate).
  eassert (E1 : launch slow_then_fast false (boot (Some 10)) = (Ret _, _))
    by (vm_compute; reflexivity).
  match type of E1 with
  | _ = (Ret ?fr, ?w0) =>
      eassert (E2 : polling (polling_fuel fr w0) fr w0
                    = Some (Raise KeyboardInterrupt, _, _))
        by (vm_compute; reflexivity)
  end.
  pose proof (@interrupt_is_answered_by_the_sweep nat nat slow_then_fast
                0%Z false (boot (Some 10)) _ _ _ _ Hpool E1 E2) as H.
  vm_compute in H. vm_compute. exact H.
Defined.



(** C5 as stated fails: the second future is running when the sweep of
    [finally] meets it, so the callback is called with [False] and again,
    with the future, when the future finishes: three calls for two
    futures. *)
Lemma callback_called_more_often_than_futures :
  exists r w',
    run_in_threads failure_then_slow 0 true (boot None) = Some (r, w') /\
    invocations w' = [CbFalse; CbFuture 0; CbFuture 1] /\
    length failure_then_slow < length (invocations w').
Proof.
  do 2 eexists.
  split; [vm_compute; reflexivity|].
  split; [reflexivity|cbn; lia].
Qed.

(** CTRL+C comes at time 10, inside the loop, while the first callable is
    running: each of the two futures was given to the callback once. *)
Lemma callback_gets_each_future_once_witness :
  exists r w',
    interrupt_inside_loop slow_then_fast true (Some 10) w' /\
    run_in_threads slow_then_fast 0 true (boot (Some 10)) = Some (r, w') /\
    calls_with_future 0 (invocations w') = 1 /\
    calls_with_future 1 (invocations w') = 1.
Proof.
  eassert (E : run_in_threads slow_then_fast 0 true (boot (Some 10))
               = Some (_, _)) by (vm_compute; reflexivity).
  match type of E with
  | _ = Some (_, ?w) =>
      assert (Hin : interrupt_inside_loop slow_then_fast true (Some 10) w)
        by (split; vm_compute; reflexivity)
  end.
  do 2 eexists. split; [exact Hin|]. split; [exact E|].
  split.
  - apply (@callback_gets_each_future_once nat nat slow_then_fast
             0%Z (Some 10) _ _ Hin E 0). cbn. lia.
  - apply (@callback_gets_each_future_once nat nat slow_then_fast
             0%Z (Some 10) _ _ Hin E 1). cbn. lia.
Defined.

End Checks.

(** * More about the runner *)

Section RunnerFacts.

Context {value error : Type}.

Implicit Types (f x : @future value error) (l : list (@future value error)).
Implicit Types (w : @world value error) (fr : @frame value error).





(** ** Without a callback *)

Lemma silent_polled w w' : polled w w' -> silent w -> silent w'.
Proof.
  intros (_ & _ & Hobs & Hcalls & _) [H1 H2]. unfold silent.
  rewrite Hobs, Hcalls. auto.
Qed.

Lemma silent_time w w' : only_time_passed w w' -> silent w -> silent w'.
Proof.
  intros (_ & _ & Hobs & Hcalls & _) [H1 H2]. unfold silent.
  rewrite Hobs, Hcalls. auto.
Qed.

Lemma silent_mark f w : silent w -> silent (mark_cancelled f w).
Proof.
  intros [H1 H2]. unfold silent, mark_cancelled, registrations.
  cbn [observed calls add_calls add_cancelled]. rewrite H1, H2. split; reflexivity.
Qed.

Lemma cancel_sweep_silent l acc w r w' :
  cancel_sweep l false acc w = (r, w') -> silent w -> silent w'.
Proof.
  revert acc w. induction l as [|f l IH]; intros acc w.
  - cbn. unfold ret. intros H. inversion H. auto.
  - rewrite cancel_sweep_step.
    assert (Hrest : forall acc1 w1,
              (silent w -> silent w1) ->
              cancel_sweep l false acc1 w1 = (r, w') -> silent w -> silent w').
    { intros acc1 w1 Hw1 H Hs. eapply IH; eauto. }
    assert (Hhere : forall (r1 : @res error (list (@future value error))) w1,
              (silent w -> silent w1) ->
              (r1, w1) = (r, w') -> silent w -> silent w').
    { intros r1 w1 Hw1 H Hs. inversion H; subst. auto. }
    assert (Hjoin : forall w1, silent w1 -> silent (after_join f w1))
      by (intros w1 Hs; exact Hs).
    destruct (is_cancelled f w).
    { apply Hhere. intros Hs; exact Hs. }
    destruct (is_finished f w).
    { destruct (outcome (job f)); [apply Hrest|apply Hhere];
        intros Hs; exact Hs. }
    destruct (is_finished f (tick w)).
    { apply Hrest. intros Hs; exact Hs. }
    destruct (is_pending f (tick (tick w))).
    { apply Hhere. intros Hs.
      apply (silent_mark f (tick (tick w))) in Hs. exact Hs. }
    destruct (outcome (job f)); [apply Hrest|apply Hhere];
      intros Hs; exact Hs.
Qed.

Lemma collect_polled l acc w r w' : collect l acc w = (r, w') -> polled w w'.
Proof.
  revert acc w. induction l as [|f l IH]; intros acc w; cbn [collect].
  - unfold ret. intros H. inversion H. apply polled_refl.
  - unfold bind, result.
    destruct (is_cancelled f w).
    + intros H. inversion H. apply polled_tick.
    + destruct (outcome (job f)); intros H.
      * apply IH in H. eapply polled_trans; [apply (polled_join f w)|exact H].
      * inversion H. apply (polled_join f w).
Qed.

Lemma silent_invocations w : silent w -> invocations w = [].
Proof.
  intros [H1 H2]. unfold invocations. rewrite H2. cbn [app].
  induction (submitted w) as [|f l IH]; [reflexivity|].
  cbn [flat_map]. rewrite IH. unfold worker_calls, registrations.
  rewrite H1. destruct (fired_by_worker w f); reflexivity.
Qed.

(** X5.  When no callback is given, none is called: not by the pool (nothing was
    registered) and not by the sweep (line 188 tests [completed_callback]). *)
Theorem no_callback_no_call
    (methods : list (@method value error)) (mw : Z) (sig : option nat) r w' :
  run_in_threads methods mw false (boot sig) = Some (r, w') ->
  invocations w' = [].
Proof.
  intros H. apply silent_invocations.
  unfold run_in_threads in H.
  destruct (ThreadPoolExecutor _ (boot sig)) as [[[]|x] wp] eqn:Hpool.
  2:{ unfold ThreadPoolExecutor in Hpool.
      destruct (_ <=? 0)%Z in Hpool; inversion Hpool; subst.
      inversion H; subst. split; reflexivity. }
  assert (wp = boot sig).
  { unfold ThreadPoolExecutor in Hpool.
    destruct (_ <=? 0)%Z in Hpool; inversion Hpool; reflexivity. }
  subst wp. unfold pool_block in H.
  destruct (launch methods false (boot sig)) as [[fr|x] w0] eqn:Hlaunch.
  2:{ destruct (launch_spec methods false (boot sig)) as (? & ? & E & _).
      rewrite Hlaunch in E. discriminate. }
  destruct (boot_launch _ _ _ _ _ Hlaunch) as (_ & _ & Hnd & Hnc & _).
  assert (Hs0 : silent w0).
  { destruct (launch_spec methods false (boot sig))
      as (fs & w0' & E & _ & _ & _ & _ & Hobs & Hcalls & _).
    rewrite Hlaunch in E. inversion E; subst. split; assumption. }
  unfold guarded in H.
  destruct (polling _ _ w0) as [[[r1 fr1] w1]|] eqn:Hpoll; [|discriminate].
  apply polling_spec in Hpoll; [|exact Hnd|exact Hnc].
  destruct Hpoll as (Hp & _).
  pose proof (silent_polled _ _ Hp Hs0) as Hs1.
  assert (Hs2 : forall r2 fr2 w2,
            on_interrupt false (r1, fr1, w1) = (r2, fr2, w2) -> silent w2).
  { intros r2 fr2 w2. unfold on_interrupt, _cancel_threads.
    destruct r1 as [u|[e| | |]]; try (intros E; inversion E; subst; exact Hs1).
    destruct (cancel_sweep (futures fr1) false [] w1) as [[fs|x] wz] eqn:Hsw;
      pose proof (cancel_sweep_silent _ _ _ _ _ Hsw Hs1) as Hz;
      intros E; inversion E; subst.
    - apply (silent_time wz); [apply shutdown_only_time|exact Hz].
    - exact Hz. }
  destruct (on_interrupt false (r1, fr1, w1)) as [[r2 fr2] w2] eqn:Hint.
  specialize (Hs2 _ _ _ eq_refl).
  unfold finalize, _cancel_threads in H.
  destruct (cancel_sweep (futures fr2) false [] w2) as [[fs|x] w3] eqn:Hsw0;
    pose proof (cancel_sweep_silent _ _ _ _ _ Hsw0 Hs2) as Hsw.
  - destruct r2 as [u|x].
    + cbn [futures results] in H.
      destruct (collect fs (results fr2) w3) as [r4 w4] eqn:Hcol.
      apply collect_polled in Hcol. inversion H; subst.
      apply (silent_time w4); [apply shutdown_only_time|].
      apply (silent_polled w3); assumption.
    + inversion H; subst.
      apply (silent_time w3); [apply shutdown_only_time|assumption].
  - inversion H; subst.
    apply (silent_time w3); [apply shutdown_only_time|assumption].
Qed.

(** ** Outcomes are taken once *)

Lemma scan_joined l fr w r fr' w' :
  scan l fr w = (r, fr', w') ->
  Forall (fun f => is_cancelled f w = false) l ->
  match r with
  | Ret true =>
      exists f, In f l /\ futures fr' = remove_future f (futures fr) /\
                joined w' = joined w ++ [fid f]
  | Ret false => joined w' = joined w
  | Raise _ => True
  end.
Proof.
  revert w. induction l as [|f l IH]; intros w; cbn [scan].
  - intros H _. inversion H. reflexivity.
  - intros H Hall. inversion Hall as [|? ? Hf Hl]; subst.
    unfold interruptible at 1 in H. destruct (sigint_pending w).
    { inversion H. exact I. }
    unfold done in H. rewrite Hf in H. cbn [orb] in H.
    destruct (is_finished f w).
    + unfold interruptible in H. destruct (sigint_pending (tick w)).
      { inversion H. exact I. }
      unfold result in H.
      change (is_cancelled f (tick w)) with (is_cancelled f w) in H.
      rewrite Hf in H.
      destruct (outcome (job f)); inversion H; subst; [|exact I].
      exists f. cbn. auto.
    + apply IH in H; [|exact Hl].
      destruct r as [[|]|e]; auto.
      destruct H as (g & Hg & H). exists g. split; [now right|exact H].
Qed.

Lemma polling_joined (fuel : nat) fr w fr' w' :
  NoDup (map (@fid value error) (futures fr)) ->
  Forall (fun f => is_cancelled f w = false) (futures fr) ->
  polling fuel fr w = Some (Ret tt, fr', w') ->
  exists cs,
    Permutation (futures fr) (cs ++ futures fr') /\
    joined w' = joined w ++ map (@fid value error) cs.
Proof.
  revert fr w. induction fuel as [|fuel IH]; intros fr w Hnd Hnc; [discriminate|].
  cbn [polling].
  destruct (any_not_done (futures fr) w) as [[[|]|e] w1] eqn:Hany.
  - apply any_not_done_spec in Hany. destruct Hany as (Hp1 & Hj1 & _).
    pose proof (not_cancelled_polled _ _ _ Hp1 Hnc) as Hnc1.
    destruct (scan (futures fr) fr w1) as [[[[|]|e] fr2] w2] eqn:Hscan.
    + pose proof (scan_spec _ _ _ _ _ _ Hscan Hnc1) as (Hp2 & _).
      apply scan_joined in Hscan; [|exact Hnc1].
      destruct Hscan as (f & Hin & Hfut & Hj2).
      destruct (remove_future_perm _ _ Hnd Hin) as [Hperm Hnd2].
      intros H. apply IH in H.
      * destruct H as (cs & Hpm & Hj). exists (f :: cs). split.
        -- rewrite Hperm. cbn [app]. constructor. rewrite <- Hfut. exact Hpm.
        -- rewrite Hj, Hj2, Hj1. cbn [map]. rewrite <- app_assoc. reflexivity.
      * rewrite Hfut. exact Hnd2.
      * rewrite Hfut.
        apply (not_cancelled_polled _ w w2 (polled_trans _ _ _ Hp1 Hp2)).
        rewrite Forall_forall in *. intros g Hg. apply Hnc.
        apply (remove_future_incl f _ g Hg).
    + pose proof (scan_spec _ _ _ _ _ _ Hscan Hnc1) as (Hp2 & Hfr).
      cbn in Hfr. subst fr2.
      apply scan_joined in Hscan; [|exact Hnc1].
      unfold interruptible. destruct (sigint_pending w2); [discriminate|].
      unfold sleep. intros H. apply IH in H; [|exact Hnd|].
      * destruct H as (cs & Hpm & Hj). exists cs. split; [exact Hpm|].
        rewrite Hj. cbn [joined tick set_clock]. rewrite Hscan, Hj1.
        reflexivity.
      * apply (not_cancelled_polled _ w (tick w2)); [|exact Hnc].
        eapply polled_trans; [exact Hp1|].
        eapply polled_trans; [exact Hp2|apply polled_tick].
    + discriminate.
  - apply any_not_done_spec in Hany. destruct Hany as (_ & Hj1 & _).
    intros H. inversion H; subst. exists []. cbn.
    rewrite app_nil_r. auto.
  - discriminate.
Qed.

Lemma collect_joined l acc w rs w' :
  collect l acc w = (Ret rs, w') ->
  Forall (fun f => is_cancelled f w = false) l ->
  joined w' = joined w ++ map (@fid value error) l.
Proof.
  revert acc w. induction l as [|f l IH]; intros acc w; cbn [collect].
  - unfold ret. intros H _. inversion H. cbn. rewrite app_nil_r. reflexivity.
  - intros H Hall. inversion Hall as [|? ? Hf Hl]; subst.
    unfold bind, result in H. rewrite Hf in H.
    destruct (outcome (job f)); [|discriminate].
    apply IH in H.
    + rewrite H. cbn. rewrite <- app_assoc. reflexivity.
    + exact Hl.
Qed.

(** X6.  When a run without CTRL+C returns its list, the outcome of every
    submitted future was taken by [result()] exactly once: none twice and
    none left out. *)
Theorem returned_run_took_each_outcome_once
    (methods : list (@method value error)) (mw : Z) (cb : bool) rs w' :
  run_in_threads methods mw cb (boot None) = Some (Ret rs, w') ->
  Permutation (joined w') (seq 0 (length methods)).
Proof.
  unfold run_in_threads, ThreadPoolExecutor.
  destruct (_ <=? 0)%Z; [discriminate|].
  unfold pool_block.
  destruct (launch_spec methods cb (boot None))
    as (fs & w0 & E & Hjob & Hfid & _ & Hcan & _ & _ & Hj0 & Hs0).
  rewrite E. cbn [boot submitted cancelled joined sigint length] in *.
  assert (Hnd : NoDup (map (@fid value error) fs))
    by (rewrite Hfid; apply seq_NoDup).
  assert (Hnc : Forall (fun f => is_cancelled f w0 = false) fs).
  { apply Forall_forall. intros g _. unfold is_cancelled.
    rewrite Hcan. reflexivity. }
  unfold guarded.
  destruct (polling (polling_fuel {| futures := fs; results := [] |} w0)
              {| futures := fs; results := [] |} w0)
    as [[[r fr1] w1]|] eqn:Hpoll; [|discriminate].
  pose proof (polling_spec _ {| futures := fs; results := [] |} _ _ _ _
                Hnd Hnc Hpoll) as (Hp & Hki & Hfin & _).
  destruct r as [[]|e].
  - apply polling_joined in Hpoll; [|exact Hnd|exact Hnc].
    destruct Hpoll as (cs & Hperm & Hj1). cbn [futures] in Hperm.
    specialize (Hfin eq_refl).
    assert (Hnc1 : Forall (fun f => is_cancelled f w1 = false) (futures fr1)).
    { rewrite Forall_forall in *. intros g Hg.
      destruct Hp as (_ & Hcan1 & _). unfold is_cancelled. rewrite Hcan1.
      apply Hnc. eapply Permutation_in; [symmetry; exact Hperm|].
      apply in_or_app. now right. }
    cbn [on_interrupt]. unfold finalize, _cancel_threads.
    destruct (cancel_sweep (futures fr1) cb [] w1) as [[s|e] w2] eqn:Hsw;
      [|discriminate].
    apply cancel_sweep_settled in Hsw.
    2:{ rewrite Forall_forall in *. intros g Hg. unfold settled.
        rewrite (Hfin g Hg). apply orb_true_r. }
    destruct Hsw as (-> & Hw2 & _). cbn [app futures results].
    destruct (collect (futures fr1) (results fr1) w2) as [r3 w3] eqn:Hcol.
    intros H. inversion H; subst.
    destruct Hw2 as (_ & Hcan2 & _ & _ & Hj2 & _).
    apply collect_joined in Hcol.
    2:{ apply (not_cancelled_later _ w1 w2 Hcan2). exact Hnc1. }
    pose proof (shutdown_only_time w3) as (_ & _ & _ & _ & Hj3 & _).
    rewrite Hj3, Hcol, Hj2, Hj1, Hj0. cbn [app].
    rewrite <- map_app, <- Hfid. apply Permutation_map.
    symmetry. exact Hperm.
  - assert (Hnot : e <> KeyboardInterrupt).
    { intros ->. apply (Hki eq_refl). exact Hs0. }
    assert (Hsame : on_interrupt cb (Raise e, fr1, w1) = (Raise e, fr1, w1))
      by (destruct e; try reflexivity; congruence).
    rewrite Hsame. unfold finalize.
    destruct (_cancel_threads (futures fr1) cb w1) as [[s|e'] w2]; discriminate.
Qed.

(** ** The order of the results *)

Lemma subsequence_refl {A : Type} (l : list A) : subsequence l l.
Proof.
  induction l; [apply subsequence_nil|apply subsequence_keep; assumption].
Qed.

Lemma subsequence_trans {A : Type} (l1 l2 l3 : list A) :
  subsequence l1 l2 -> subsequence l2 l3 -> subsequence l1 l3.
Proof.
  intros H12 H23. revert l1 H12.
  induction H23 as [|x l2 l3 H IH|x l2 l3 H IH]; intros l1 H12.
  - exact H12.
  - apply subsequence_skip. apply IH. exact H12.
  - inversion H12; subst.
    + apply subsequence_skip. apply IH. assumption.
    + apply subsequence_keep. apply IH. assumption.
Qed.

Lemma remove_future_subsequence f l : subsequence (remove_future f l) l.
Proof.
  induction l as [|x l IH]; cbn [remove_future]; [apply subsequence_nil|].
  destruct (fid x =? fid f).
  - apply subsequence_skip. apply subsequence_refl.
  - apply subsequence_keep. exact IH.
Qed.

(** A turn of the loop that takes a future: the future is removed from
    [futures], [result()] hands over its value, and the value is appended to
    [results]. *)
Lemma scan_takes l fr w fr' w' :
  scan l fr w = (Ret true, fr', w') ->
  Forall (fun f => is_cancelled f w = false) l ->
  exists f v, In f l /\ outcome (job f) = inl v /\
    is_finished f w' = true /\
    futures fr' = remove_future f (futures fr) /\
    results fr' = results fr ++ [v] /\
    joined w' = joined w ++ [fid f].
Proof.
  revert w. induction l as [|f l IH]; intros w; cbn [scan]; [discriminate|].
  intros H Hall. inversion Hall as [|? ? Hf Hl]; subst.
  unfold interruptible at 1 in H. destruct (sigint_pending w); [discriminate|].
  unfold done in H. rewrite Hf in H. cbn [orb] in H.
  destruct (is_finished f w) eqn:Hfin.
  - clear IH.
    unfold interruptible in H. destruct (sigint_pending (tick w)); [discriminate|].
    unfold result in H.
    change (is_cancelled f (tick w)) with (is_cancelled f w) in H.
    rewrite Hf in H.
    destruct (outcome (job f)) as [v|e] eqn:Ho; inversion H; subst.
    exists f, v. cbn [futures results joined tick set_clock add_joined wait].
    split; [now left|]. split; [exact Ho|].
    split; [eapply finished_mono;
              [exact Hfin|cbn [clock tick set_clock add_joined wait]; lia]|].
    repeat split; reflexivity.
  - apply IH in H; [|exact Hl].
    destruct H as (g & v & Hg & H). exists g, v. split; [now right|exact H].
Qed.

(** The polling loop, when it ends by itself: the futures [taken] out of
    [futures], in the order in which they were taken, are those whose
    outcome [result()] handed over, in that order, and their values were
    appended to [results] in that order; what is left in [futures] kept its
    order. *)
Lemma polling_order (fuel : nat) fr w fr' w' :
  NoDup (map (@fid value error) (futures fr)) ->
  Forall (fun f => is_cancelled f w = false) (futures fr) ->
  polling fuel fr w = Some (Ret tt, fr', w') ->
  exists taken,
    Permutation (futures fr) (taken ++ futures fr') /\
    subsequence (futures fr') (futures fr) /\
    results fr' = results fr ++ values (map (@job value error) taken) /\
    joined w' = joined w ++ map (@fid value error) taken.
Proof.
  revert fr w. induction fuel as [|fuel IH]; intros fr w Hnd Hnc; [discriminate|].
  cbn [polling].
  destruct (any_not_done (futures fr) w) as [[[|]|e] w1] eqn:Hany.
  - apply any_not_done_spec in Hany. destruct Hany as (Hp1 & Hj1 & _).
    pose proof (not_cancelled_polled _ _ _ Hp1 Hnc) as Hnc1.
    destruct (scan (futures fr) fr w1) as [[[[|]|e] fr2] w2] eqn:Hscan.
    + pose proof (scan_spec _ _ _ _ _ _ Hscan Hnc1) as (Hp2 & _).
      apply scan_takes in Hscan; [|exact Hnc1].
      destruct Hscan as (f & v & Hin & Ho & _ & Hfut & Hres & Hj2).
      destruct (remove_future_perm _ _ Hnd Hin) as [Hperm Hnd2].
      intros H. apply IH in H.
      * destruct H as (taken & Hpm & Hsub & Hrs & Hj). exists (f :: taken).
        repeat split.
        -- rewrite Hperm. cbn [app]. constructor. rewrite <- Hfut. exact Hpm.
        -- eapply subsequence_trans; [exact Hsub|]. rewrite Hfut.
           apply remove_future_subsequence.
        -- rewrite Hrs, Hres. cbn [map]. unfold values at 2.
           cbn [flat_map]. fold (values (map (@job value error) taken)).
           unfold returned. rewrite Ho. rewrite <- app_assoc. reflexivity.
        -- rewrite Hj, Hj2, Hj1. cbn [map]. rewrite <- app_assoc. reflexivity.
      * rewrite Hfut. exact Hnd2.
      * rewrite Hfut.
        apply (not_cancelled_polled _ w w2 (polled_trans _ _ _ Hp1 Hp2)).
        rewrite Forall_forall in *. intros g Hg. apply Hnc.
        apply (remove_future_incl f _ g Hg).
    + pose proof (scan_spec _ _ _ _ _ _ Hscan Hnc1) as (Hp2 & Hfr).
      cbn in Hfr. subst fr2.
      apply scan_joined in Hscan; [|exact Hnc1].
      unfold interruptible. destruct (sigint_pending w2); [discriminate|].
      unfold sleep. intros H. apply IH in H; [|exact Hnd|].
      * destruct H as (taken & Hpm & Hsub & Hrs & Hj). exists taken.
        repeat split; try assumption.
        rewrite Hj. cbn [joined tick set_clock]. rewrite Hscan, Hj1.
        reflexivity.
      * apply (not_cancelled_polled _ w (tick w2)); [|exact Hnc].
        eapply polled_trans; [exact Hp1|].
        eapply polled_trans; [exact Hp2|apply polled_tick].
    + discriminate.
  - apply any_not_done_spec in Hany. destruct Hany as (_ & Hj1 & _).
    intros H. inversion H; subst. exists []. cbn.
    rewrite !app_nil_r. repeat split; auto. apply subsequence_refl.
  - discriminate.
Qed.

(** C1, as the code has it.  When every callable returns a value and no
    CTRL+C comes, the run returns one result per callable, in the order in
    which [result()] was called on the futures: first the futures [taken] by
    the polling loop, each appended to [results] when the loop found it
    done, then the futures [left] in [futures] when the loop ended, in
    submission order.  The list is a permutation of the submission order --
    and the submission order itself when every future had finished before
    the loop started. *)
Theorem results_follow_the_order_of_result_calls
    (methods : list (@method value error)) (mw : Z) (cb : bool) :
  Forall succeeds methods ->
  methods <> [] \/ (0 < mw)%Z ->
  exists fr w0 taken left w1 rs w',
    launch methods cb (boot None) = (Ret fr, w0) /\
    polling (polling_fuel fr w0) fr w0
      = Some (Ret tt,
              {| futures := left;
                 results := values (map (@job value error) taken) |}, w1) /\
    joined w1 = map (@fid value error) taken /\
    subsequence left (futures fr) /\
    Permutation (taken ++ left) (futures fr) /\
    run_in_threads methods mw cb (boot None) = Some (Ret rs, w') /\
    rs = values (map (@job value error) (taken ++ left)) /\
    joined w' = map (@fid value error) (taken ++ left) /\
    Permutation rs (values methods) /\
    length rs = length methods /\
    (Forall (fun f => is_finished f w0 = true) (futures fr) ->
     rs = values methods).
Proof.
  intros Hok Hpool.
  unfold run_in_threads. rewrite pool_created by exact Hpool.
  unfold pool_block.
  destruct (launch methods cb (boot None)) as [[fr|x] w0] eqn:Hlaunch.
  2:{ destruct (launch_spec methods cb (boot None)) as (? & ? & E & _).
      rewrite Hlaunch in E. discriminate. }
  destruct (boot_launch _ _ _ _ _ Hlaunch) as (Hjob & Hres & Hnd & Hnc & Hs).
  assert (Hj0 : joined w0 = []).
  { destruct (launch_spec methods cb (boot None))
      as (? & ? & E & _ & _ & _ & _ & _ & _ & Hj & _).
    rewrite Hlaunch in E. inversion E; subst. exact Hj. }
  unfold guarded.
  destruct (polling (polling_fuel fr w0) fr w0) as [[[r fr1] w1]|] eqn:Hpoll.
  2:{ exfalso. revert Hpoll. apply polling_enough_fuel.
      unfold polling_fuel. lia. }
  destruct (polling_spec _ _ _ _ _ _ Hnd Hnc Hpoll)
    as (Hp & Hki & Hfin & cs & lost & Hperm & Hcs & Hrs & Hlost).
  assert (Hin : forall g, In g (futures fr) -> succeeds (job g)).
  { intros g Hg. rewrite Forall_forall in Hok. apply Hok. rewrite <- Hjob.
    apply in_map. exact Hg. }
  destruct r as [[]|x].
  - (* the loop ended by itself *)
    clear cs lost Hperm Hcs Hrs Hlost.
    destruct (polling_order _ _ _ _ _ Hnd Hnc Hpoll)
      as (taken & Hperm & Hsub & Hrs & Hj1).
    rewrite Hres in Hrs. rewrite Hj0 in Hj1. cbn [app] in Hrs, Hj1.
    specialize (Hfin eq_refl).
    assert (Hall : Forall (fun f => is_cancelled f w1 = false /\
                                    is_finished f w1 = true) (futures fr1)).
    { rewrite Forall_forall in *. intros g Hg. split; [|auto].
      destruct Hp as (_ & Hcan & _). unfold is_cancelled. rewrite Hcan.
      apply Hnc. eapply Permutation_in; [symmetry; exact Hperm|].
      apply in_or_app. now right. }
    cbn [on_interrupt].
    destruct fr1 as [l1 vs1]. cbn [futures results] in *. subst vs1.
    assert (Hgood : Forall (fun f => succeeds (job f)) l1).
    { apply Forall_forall. intros g Hg. apply Hin.
      eapply Permutation_in; [symmetry; exact Hperm|].
      apply in_or_app. now right. }
    unfold finalize, _cancel_threads. cbn [futures results].
    pose proof (cancel_sweep_finished l1 cb []
                  (values (map (@job value error) taken)) w1 Hall) as Hsw.
    rewrite (gather_succeeds _ _ Hgood) in Hsw.
    destruct Hsw as (w2 & Esw & Hw2). rewrite Esw. cbn [app futures results].
    destruct Hw2 as (_ & Hcan2 & _ & _ & Hj2 & _).
    assert (Hnc2 : Forall (fun f => is_cancelled f w2 = false) l1).
    { apply (not_cancelled_later l1 w1 w2 Hcan2).
      eapply Forall_impl; [|exact Hall]. cbn beta. tauto. }
    destruct (collect_result l1 (values (map (@job value error) taken)) w2 Hnc2)
      as (w3 & Ecol).
    rewrite (gather_succeeds _ _ Hgood) in Ecol. rewrite Ecol.
    pose proof (collect_joined _ _ _ _ _ Ecol Hnc2) as Hj3.
    pose proof (shutdown_only_time w3) as (_ & _ & _ & _ & Hj4 & _).
    assert (Hpv : Permutation
                    (values (map (@job value error) taken)
                       ++ values (map (@job value error) l1))
                    (values methods)).
    { rewrite <- values_app, <- map_app, <- Hjob.
      unfold values. apply Permutation_flat_map, Permutation_map.
      symmetry. exact Hperm. }
    exists fr, w0, taken, l1, w1,
      (values (map (@job value error) taken)
         ++ values (map (@job value error) l1)),
      (shutdown w3).
    split; [reflexivity|]. split; [exact Hpoll|]. split; [exact Hj1|].
    split; [exact Hsub|]. split; [symmetry; exact Hperm|].
    split; [reflexivity|].
    split; [rewrite map_app, values_app; reflexivity|].
    split; [rewrite Hj4, Hj3, Hj2, Hj1, map_app; reflexivity|].
    split; [exact Hpv|].
    split; [rewrite (Permutation_length Hpv); apply values_length; exact Hok|].
    intros Hdone.
    destruct (any_not_done_all_done _ _ Hs Hdone) as (w1' & Hany).
    unfold polling_fuel in Hpoll. cbn [polling] in Hpoll.
    rewrite Hany in Hpoll. injection Hpoll as Hfr _.
    pose proof (f_equal (@futures value error) Hfr) as F1.
    pose proof (f_equal (@results value error) Hfr) as F2.
    cbn [futures results] in F1, F2.
    rewrite <- F1, <- F2, Hres, Hjob. reflexivity.
  - (* the loop cannot raise *)
    exfalso. destruct x as [e| | |]; cbn in Hlost.
    + destruct Hlost as (f & -> & Hf).
      destruct (Hin f) as [v Hv].
      * eapply Permutation_in; [symmetry; exact Hperm|].
        apply in_or_app. right. now left.
      * congruence.
    + exact Hlost.
    + apply Hki; [reflexivity|exact Hs].
    + exact Hlost.
Qed.

(** ** A negative [max_workers] *)

Lemma scan_submitted l fr w r fr' w' :
  scan l fr w = (r, fr', w') -> submitted w' = submitted w.
Proof.
  revert w. induction l as [|f l IH]; intros w; cbn [scan].
  - intros H. inversion H. reflexivity.
  - unfold interruptible at 1. destruct (sigint_pending w).
    { intros H. inversion H. reflexivity. }
    unfold done. destruct (is_cancelled f w || is_finished f w).
    + unfold interruptible. destruct (sigint_pending (tick w)).
      { intros H. inversion H. reflexivity. }
      unfold result. destruct (is_cancelled f (tick w)).
      { intros H. inversion H. reflexivity. }
      destruct (outcome (job f)); intros H; inversion H; reflexivity.
    + intros H. apply IH in H. exact H.
Qed.

Lemma polling_submitted (fuel : nat) fr w r fr' w' :
  polling fuel fr w = Some (r, fr', w') -> submitted w' = submitted w.
Proof.
  revert fr w. induction fuel as [|fuel IH]; intros fr w; [discriminate|].
  cbn [polling].
  destruct (any_not_done (futures fr) w) as [[[|]|e] w1] eqn:Hany;
    apply any_not_done_spec in Hany; destruct Hany as ((Hsub1 & _) & _).
  - destruct (scan (futures fr) fr w1) as [[[[|]|e] fr2] w2] eqn:Hscan;
      apply scan_submitted in Hscan.
    + intros H. apply IH in H. congruence.
    + unfold interruptible. destruct (sigint_pending w2).
      * intros H. inversion H; subst. cbn. congruence.
      * unfold sleep. intros H. apply IH in H. cbn in H. congruence.
    + intros H. inversion H; subst. congruence.
  - intros H. inversion H; subst. exact Hsub1.
  - intros H. inversion H; subst. exact Hsub1.
Qed.

(** Once the futures are created, the run neither adds nor drops one. *)
Lemma pool_block_submitted
    (methods : list (@method value error)) (cb : bool) w :
  exists r w' fs,
    pool_block methods cb w = Some (r, w') /\
    submitted w' = submitted w ++ fs /\
    map (@job value error) fs = methods.
Proof.
  unfold pool_block.
  destruct (launch_spec methods cb w)
    as (fs & w0 & E & Hjob & _ & Hsub & _). rewrite E.
  unfold guarded.
  destruct (polling (polling_fuel {| futures := fs; results := [] |} w0)
              {| futures := fs; results := [] |} w0)
    as [[[r1 fr1] w1]|] eqn:Hpoll.
  2:{ exfalso. revert Hpoll. apply polling_enough_fuel.
      unfold polling_fuel. lia. }
  apply polling_submitted in Hpoll.
  destruct (on_interrupt cb (r1, fr1, w1)) as [[r2 fr2] w2] eqn:Hint.
  apply on_interrupt_kept in Hint. destruct Hint as (Hsub2 & _).
  destruct (finalize cb (r2, fr2, w2)) as [[r3 fr3] w3] eqn:Hfinal.
  apply finalize_kept in Hfinal. destruct Hfinal as (Hsub3 & _).
  destruct r3 as [u|x].
  - destruct (collect (futures fr3) (results fr3) w3) as [r4 w4] eqn:Hcol.
    apply collect_kept in Hcol. destruct Hcol as (Hsub4 & _).
    exists r4, w4, fs. split; [reflexivity|]. split; [congruence|exact Hjob].
  - exists (Raise x), w3, fs.
    split; [reflexivity|]. split; [congruence|exact Hjob].
Qed.

(** C2, as the code has it.  A negative [max_workers] is replaced by the
    number of callables, as 0 is: the run is the one with [max_workers = 0].
    With callables to run nothing is raised before they are submitted: the
    pool is created, its block entered and, when no CTRL+C comes, the run
    ends with a future submitted for each callable, in order.  With no
    callable the new worker count is 0 and the constructor of the pool
    raises [ValueError] in the world it was called in. *)
Theorem negative_max_workers_is_one_worker_per_task
    (methods : list (@method value error)) (mw : Z) (cb : bool) w :
  (mw < 0)%Z ->
  run_in_threads methods mw cb w = run_in_threads methods 0 cb w /\
  (methods = [] ->
   run_in_threads methods mw cb w = Some (Raise ValueError, w)) /\
  (methods <> [] ->
   run_in_threads methods mw cb w =
     match pool_block methods cb w with
     | None => None
     | Some (r, w2) => Some (r, shutdown w2)
     end /\
   (sigint w = None ->
    exists r w' fs,
      run_in_threads methods mw cb w = Some (r, w') /\
      submitted w' = submitted w ++ fs /\
      map (@job value error) fs = methods)).
Proof.
  intros Hneg.
  assert (E : (mw <=? 0)%Z = true) by (apply Z.leb_le; lia).
  split; [unfold run_in_threads; rewrite E; reflexivity|].
  split.
  - intros ->. unfold run_in_threads. rewrite E. reflexivity.
  - intros Hne.
    assert (Hrun : run_in_threads methods mw cb w =
                     match pool_block methods cb w with
                     | None => None
                     | Some (r, w2) => Some (r, shutdown w2)
                     end).
    { unfold run_in_threads.
      rewrite pool_created by (left; exact Hne). reflexivity. }
    split; [exact Hrun|].
    intros _. rewrite Hrun.
    destruct (pool_block_submitted methods cb w)
      as (r & w2 & fs & Eb & Hsub & Hjob).
    rewrite Eb. exists r, (shutdown w2), fs.
    split; [reflexivity|]. split; [|exact Hjob].
    pose proof (shutdown_only_time w2) as (Hsub2 & _). congruence.
Qed.

(** ** Errors met by the sweep of [finally] *)



End RunnerFacts.

(** * The other helpers: properties *)

Module UtilFacts.

Import Stdlib.Strings.String Stdlib.Strings.Ascii.
Import Util.
Local Open Scope string_scope.

(** ** Tables *)

Lemma assoc_get_set_same {A : Type} (k : string) (v : A) d :
  assoc_get k (assoc_set k v d) = Some v.
Proof.
  induction d as [|[k' v'] d IH]; cbn.
  - rewrite String.eqb_refl. reflexivity.
  - destruct (String.eqb k' k) eqn:E; cbn.
    + rewrite String.eqb_refl. reflexivity.
    + rewrite E. exact IH.
Qed.

Lemma assoc_get_set_other {A : Type} (k k' : string) (v : A) d :
  k <> k' -> assoc_get k' (assoc_set k v d) = assoc_get k' d.
Proof.
  intros Hne. induction d as [|[k0 v0] d IH]; cbn.
  - apply String.eqb_neq in Hne. rewrite Hne. reflexivity.
  - destruct (String.eqb k0 k) eqn:E; cbn.
    + apply String.eqb_eq in E. subst k0.
      apply String.eqb_neq in Hne. rewrite Hne. reflexivity.
    + destruct (String.eqb k0 k'); [reflexivity|exact IH].
Qed.

Lemma assoc_set_same {A : Type} (k : string) (v : A) d :
  assoc_get k d = Some v -> assoc_set k v d = d.
Proof.
  induction d as [|[k' v'] d IH]; cbn; [discriminate|].
  destruct (String.eqb k' k) eqn:E.
  - apply String.eqb_eq in E. subst k'. intros H. inversion H. reflexivity.
  - intros H. rewrite IH by exact H. reflexivity.
Qed.

(** [k in fields], as a test. *)
Lemma listed_in (k : string) (fields : list string) :
  existsb (String.eqb k) fields = true <-> In k fields.
Proof.
  rewrite existsb_exists. split.
  - intros (x & Hin & E). apply String.eqb_eq in E. subst x. exact Hin.
  - intros Hin. exists k. split; [exact Hin|apply String.eqb_refl].
Qed.

Section ObjectFacts.

Variable V : Type.

Implicit Types (src dest : object V) (fields : list string) (d : dict V).

Lemma offer_nil src k : offer src [] k = None.
Proof. reflexivity. Qed.

Lemma offer_cons_same src fields k :
  offer src (k :: fields) k =
    match assoc_get k (attributes src) with
    | Some (Some v) => Some v
    | _ => None
    end.
Proof. unfold offer. cbn. rewrite String.eqb_refl. reflexivity. Qed.

Lemma offer_cons_other src fields k k' :
  k <> k' -> offer src (k :: fields) k' = offer src fields k'.
Proof.
  intros Hne. unfold offer. cbn.
  assert (E : String.eqb k' k = false)
    by (apply String.eqb_neq; congruence).
  rewrite E. reflexivity.
Qed.

(** *** fields_to_dict *)

Lemma fields_to_dict_loop_get src fields d0 d :
  fields_to_dict_loop src fields d0 = Return d ->
  forall k, assoc_get k d =
              match offer src fields k with
              | Some v => Some v
              | None => assoc_get k d0
              end.
Proof.
  revert d0. induction fields as [|f fields IH]; intros d0; cbn [fields_to_dict_loop].
  - intros H k. inversion H. reflexivity.
  - unfold getattr.
    destruct (assoc_get f (attributes src)) as [[v|]|] eqn:Hf; [| |discriminate].
    + intros H k. rewrite (IH _ H k).
      destruct (String.eqb f k) eqn:E.
      * apply String.eqb_eq in E. subst k.
        rewrite offer_cons_same, Hf, assoc_get_set_same.
        unfold offer. rewrite Hf.
        destruct (existsb (String.eqb f) fields); reflexivity.
      * apply String.eqb_neq in E.
        rewrite (offer_cons_other _ _ _ _ E), (assoc_get_set_other _ _ _ _ E).
        reflexivity.
    + intros H k. rewrite (IH _ H k).
      destruct (String.eqb f k) eqn:E.
      * apply String.eqb_eq in E. subst k.
        rewrite offer_cons_same, Hf. unfold offer. rewrite Hf.
        destruct (existsb (String.eqb f) fields); reflexivity.
      * apply String.eqb_neq in E.
        rewrite (offer_cons_other _ _ _ _ E). reflexivity.
Qed.

Lemma fields_to_dict_loop_returns src fields d0 :
  (exists d, fields_to_dict_loop src fields d0 = Return d) <->
  Forall (fun k => hasattr src k = true) fields.
Proof.
  revert d0. induction fields as [|f fields IH]; intros d0; cbn [fields_to_dict_loop].
  - split; [constructor|eauto].
  - unfold getattr.
    destruct (assoc_get f (attributes src)) as [[v|]|] eqn:Hf.
    + rewrite IH. split.
      * intros H. constructor; [unfold hasattr; rewrite Hf; reflexivity|exact H].
      * intros H. inversion H. assumption.
    + rewrite IH. split.
      * intros H. constructor; [unfold hasattr; rewrite Hf; reflexivity|exact H].
      * intros H. inversion H. assumption.
    + split.
      * intros (d & H). discriminate.
      * intros H. inversion H as [|? ? Hh _]. unfold hasattr in Hh.
        rewrite Hf in Hh. discriminate.
Qed.

Lemma fields_to_dict_list src fields :
  fields_to_dict src fields =
    if negb (truth src) then Throw AssertionError
    else
      match fields with
      | [] => Throw AssertionError
      | _ => fields_to_dict_loop src fields []
      end.
Proof.
  unfold fields_to_dict, fields_to_dict_iterable.
  destruct (truth src), fields; reflexivity.
Qed.

(** X7.  The dictionary of [fields_to_dict] maps a key to a value exactly when
    the key is listed in [fields] and the attribute of [src] with that name
    holds this value; attributes that are [None] give no entry. *)
Theorem fields_to_dict_lookup src fields d :
  fields_to_dict src fields = Return d ->
  forall k v,
    assoc_get k d = Some v <->
    In k fields /\ getattr src k = Return (Some v).
Proof.
  rewrite fields_to_dict_list.
  destruct (truth src); cbn [negb]; [|discriminate].
  intros H.
  assert (Hloop : fields_to_dict_loop src fields [] = Return d)
    by (destruct fields; [discriminate|exact H]).
  intros k v. rewrite (fields_to_dict_loop_get _ _ _ _ Hloop k).
  unfold offer, getattr. cbn [assoc_get].
  destruct (existsb (String.eqb k) fields) eqn:E.
  - apply listed_in in E.
    destruct (assoc_get k (attributes src)) as [[v'|]|].
    + split.
      * intros H1. inversion H1; subst. auto.
      * intros [_ H1]. inversion H1; subst. reflexivity.
    + split; [discriminate|intros [_ H1]; discriminate].
    + split; [discriminate|intros [_ H1]; discriminate].
  - split; [discriminate|].
    intros [Hin _]. apply listed_in in Hin. congruence.
Qed.

(** X8.  Called with a list, [fields_to_dict] returns a dictionary exactly
    when [src] is true, the list is not empty and [src] has every listed
    attribute; the first listed attribute that [src] lacks is the one
    [AttributeError] names.  Called with an iterator, which is always true,
    the emptiness of [fields] is not noticed: it returns exactly when [src]
    is true and has every attribute named, and an iterator that yields
    nothing gives the empty dictionary. *)
Theorem fields_to_dict_returns src fields :
  ((exists d, fields_to_dict src fields = Return d) <->
   truth src = true /\ fields <> [] /\
   Forall (fun k => hasattr src k = true) fields) /\
  (forall before k after,
     truth src = true ->
     fields = (before ++ k :: after)%list ->
     Forall (fun k' => hasattr src k' = true) before ->
     hasattr src k = false ->
     fields_to_dict src fields = Throw (AttributeError k)) /\
  ((exists d, fields_to_dict_iterable src true fields = Return d) <->
   truth src = true /\ Forall (fun k => hasattr src k = true) fields) /\
  (truth src = true -> fields_to_dict_iterable src true [] = Return []).
Proof.
  split; [|split; [|split]].
  - rewrite fields_to_dict_list. destruct (truth src); cbn [negb].
    + destruct fields as [|f fields].
      * split; [intros (d & H); discriminate|intros (_ & H & _); congruence].
      * rewrite fields_to_dict_loop_returns. split.
        -- intros H. split; [reflexivity|]. split; [discriminate|exact H].
        -- intros (_ & _ & H). exact H.
    + split; [intros (d & H); discriminate|intros (H & _); discriminate].
  - intros before k after Ht -> Hbefore Hk.
    rewrite fields_to_dict_list. rewrite Ht. cbn [negb].
    assert (Hloop : forall d0,
              fields_to_dict_loop src (before ++ k :: after)%list d0
                = Throw (AttributeError k)).
    { induction Hbefore as [|f before Hf _ IH]; intros d0;
        cbn [app fields_to_dict_loop]; unfold getattr.
      - unfold hasattr in Hk.
        destruct (assoc_get k (attributes src)); [discriminate|reflexivity].
      - unfold hasattr in Hf.
        destruct (assoc_get f (attributes src)) as [[v|]|];
          [apply IH|apply IH|discriminate]. }
    destruct before; cbn [app]; apply Hloop.
  - unfold fields_to_dict_iterable. destruct (truth src); cbn [negb].
    + rewrite fields_to_dict_loop_returns. tauto.
    + split; [intros (d & H); discriminate|intros (H & _); discriminate].
  - intros Ht. unfold fields_to_dict_iterable. rewrite Ht. reflexivity.
Qed.

(** *** set_filtered_fields *)

Lemma offer_cons_more src fields f k v :
  offer src fields k = Some v -> offer src (f :: fields) k = Some v.
Proof.
  unfold offer. cbn [existsb].
  destruct (existsb (String.eqb k) fields); [|discriminate].
  rewrite orb_true_r. auto.
Qed.

Lemma set_filtered_fields_loop_spec src dest fields :
  Forall (fun k => hasattr src k = true) fields ->
  exists dest',
    set_filtered_fields_loop src dest fields = (Return tt, dest') /\
    truth dest' = truth dest /\
    forall k, assoc_get k (attributes dest') =
                match offer src fields k with
                | Some v => Some (Some v)
                | None => assoc_get k (attributes dest)
                end.
Proof.
  intros Hall. revert dest.
  induction Hall as [|f fields Hf _ IH]; intros dest;
    cbn [set_filtered_fields_loop].
  - exists dest. auto.
  - rewrite Hf. unfold hasattr in Hf. unfold getattr.
    destruct (assoc_get f (attributes src)) as [[v|]|] eqn:Ef;
      [| |discriminate].
    + destruct (IH (setattr dest f (Some v))) as (dest' & E & Ht & Hget).
      exists dest'. split; [exact E|]. split; [exact Ht|].
      intros k. rewrite Hget. cbn [setattr attributes].
      destruct (String.eqb f k) eqn:Ek.
      * apply String.eqb_eq in Ek. subst k.
        rewrite offer_cons_same, Ef, assoc_get_set_same.
        unfold offer. rewrite Ef.
        destruct (existsb (String.eqb f) fields); reflexivity.
      * apply String.eqb_neq in Ek.
        rewrite (offer_cons_other _ _ _ _ Ek),
                (assoc_get_set_other _ _ _ _ Ek).
        reflexivity.
    + destruct (IH dest) as (dest' & E & Ht & Hget).
      exists dest'. split; [exact E|]. split; [exact Ht|].
      intros k. rewrite Hget.
      destruct (String.eqb f k) eqn:Ek.
      * apply String.eqb_eq in Ek. subst k.
        rewrite offer_cons_same, Ef. unfold offer. rewrite Ef.
        destruct (existsb (String.eqb f) fields); reflexivity.
      * apply String.eqb_neq in Ek.
        rewrite (offer_cons_other _ _ _ _ Ek). reflexivity.
Qed.

Lemma set_filtered_fields_loop_returns src dest fields dest' :
  set_filtered_fields_loop src dest fields = (Return tt, dest') ->
  Forall (fun k => hasattr src k = true) fields.
Proof.
  revert dest. induction fields as [|f fields IH]; intros dest;
    cbn [set_filtered_fields_loop]; [constructor|].
  destruct (hasattr src f) eqn:Hf; [|discriminate].
  unfold getattr.
  destruct (assoc_get f (attributes src)) as [[v|]|]; [| |discriminate];
    intros H; apply IH in H; constructor; assumption.
Qed.




Lemma set_filtered_fields_loop_fixed src dest fields :
  Forall (fun k => hasattr src k = true) fields ->
  (forall k v, offer src fields k = Some v ->
               assoc_get k (attributes dest) = Some (Some v)) ->
  set_filtered_fields_loop src dest fields = (Return tt, dest).
Proof.
  intros Hall. induction Hall as [|f fields Hf _ IH]; intros Hhas;
    cbn [set_filtered_fields_loop]; [reflexivity|].
  rewrite Hf. unfold hasattr in Hf. unfold getattr.
  assert (Hrest : forall k v, offer src fields k = Some v ->
                    assoc_get k (attributes dest) = Some (Some v)).
  { intros k v H. apply Hhas. apply offer_cons_more. exact H. }
  destruct (assoc_get f (attributes src)) as [[v|]|] eqn:Ef;
    [| |discriminate].
  - assert (E : setattr dest f (Some v) = dest).
    { unfold setattr. rewrite assoc_set_same.
      - destruct dest; reflexivity.
      - apply Hhas. rewrite offer_cons_same, Ef. reflexivity. }
    rewrite E. apply IH. exact Hrest.
  - apply IH. exact Hrest.
Qed.

(** X11.  Copying twice is copying once: after a call that returned, a second
    call with the same arguments returns and leaves [dest] as it is. *)
Theorem set_filtered_fields_twice src dest fields dest' :
  set_filtered_fields src dest fields = (Return tt, dest') ->
  set_filtered_fields src dest' fields = (Return tt, dest').
Proof.
  unfold set_filtered_fields.
  destruct (truth src); cbn [negb]; [|discriminate].
  destruct (truth dest) eqn:Hd; cbn [negb]; [|discriminate].
  intros H.
  assert (Hloop : set_filtered_fields_loop src dest fields = (Return tt, dest'))
    by (destruct fields; [discriminate|exact H]).
  pose proof (set_filtered_fields_loop_returns _ _ _ _ Hloop) as Hall.
  destruct (set_filtered_fields_loop_spec src dest fields Hall)
    as (dest2 & E & Ht & Hget).
  rewrite Hloop in E. inversion E; subst dest2.
  rewrite Ht, Hd. cbn [negb].
  destruct fields as [|f fields]; [discriminate|].
  apply set_filtered_fields_loop_fixed; [exact Hall|].
  intros k v Hk. rewrite Hget, Hk. reflexivity.
Qed.

End ObjectFacts.

(** ** find_patterns_in_lines *)

Lemma nth_error_middle {A : Type} (pre : list A) (r : A) (rs : list A) :
  nth_error (pre ++ r :: rs)%list (List.length pre) = Some r.
Proof. induction pre as [|x pre IH]; cbn; [reflexivity|exact IH]. Qed.

Lemma list_set_middle {A : Type} (pre : list A) (r v : A) (rs : list A) :
  list_set (List.length pre) v (pre ++ r :: rs)%list
    = Some (pre ++ v :: rs)%list.
Proof.
  induction pre as [|x pre IH]; cbn; [reflexivity|].
  rewrite IH. reflexivity.
Qed.

(** One line, from the entry [index] on: an empty entry takes the hits of
    its pattern on the line, the others stay. *)
Lemma patterns_loop_spec (patterns : list Pattern) (line : string) :
  forall (pre rs : list (list string)),
    List.length rs = List.length patterns ->
    patterns_loop (List.length pre) patterns line (pre ++ rs)%list =
      Return (pre ++ map (fun pr => match snd pr with
                                    | [] => findall (fst pr) line
                                    | _ :: _ => snd pr
                                    end) (combine patterns rs))%list.
Proof.
  induction patterns as [|p patterns IH]; intros pre rs Hlen.
  - destruct rs; [|discriminate]. reflexivity.
  - destruct rs as [|r rs]; [discriminate|].
    cbn [patterns_loop combine map fst snd].
    rewrite nth_error_middle.
    injection Hlen as Hlen.
    destruct r as [|h r].
    + rewrite list_set_middle.
      change (pre ++ findall p line :: rs)%list
        with (pre ++ [findall p line] ++ rs)%list.
      rewrite app_assoc.
      replace (S (List.length pre))
        with (List.length (pre ++ [findall p line])%list)
        by (rewrite length_app; cbn; lia).
      rewrite (IH _ _ Hlen). rewrite <- app_assoc. reflexivity.
    + change (pre ++ (h :: r) :: rs)%list
        with (pre ++ [h :: r] ++ rs)%list.
      rewrite app_assoc.
      replace (S (List.length pre))
        with (List.length (pre ++ [h :: r])%list)
        by (rewrite length_app; cbn; lia).
      rewrite (IH _ _ Hlen). rewrite <- app_assoc. reflexivity.
Qed.

Lemma first_hits_snoc (p : Pattern) (seen : list string) (line : string) :
  first_hits p (seen ++ [line])%list =
    match first_hits p seen with
    | [] => findall p line
    | h :: hits => h :: hits
    end.
Proof.
  induction seen as [|l seen IH]; cbn [app first_hits].
  - destruct (findall p line); reflexivity.
  - destruct (findall p l); [exact IH|reflexivity].
Qed.

Lemma lines_loop_spec (patterns : list Pattern) (lines seen : list string) :
  lines_loop lines patterns (map (fun p => first_hits p seen) patterns) =
    Return (map (fun p => first_hits p (seen ++ lines)%list) patterns).
Proof.
  revert seen. induction lines as [|line lines IH]; intros seen;
    cbn [lines_loop].
  - rewrite app_nil_r. reflexivity.
  - pose proof (patterns_loop_spec patterns line []
                  (map (fun p => first_hits p seen) patterns)) as H.
    cbn [List.length app] in H. rewrite H by apply length_map.
    assert (E : map (fun pr => match snd pr with
                               | [] => findall (fst pr) line
                               | _ :: _ => snd pr
                               end)
                  (combine patterns (map (fun p => first_hits p seen) patterns))
                = map (fun p => first_hits p (seen ++ [line])%list) patterns).
    { clear. induction patterns as [|p patterns IHp]; [reflexivity|].
      cbn [map combine fst snd]. rewrite IHp, first_hits_snoc.
      destruct (first_hits p seen); reflexivity. }
    rewrite E, IH. rewrite <- app_assoc. reflexivity.
Qed.

(** X12.  [find_patterns_in_lines] never fails on an index and returns one entry
    per pattern, in the order of the patterns: the hits of that pattern on
    the first line on which it finds something, the empty list if it finds
    nothing on any line.  An entry does not depend on the other patterns. *)
Theorem find_patterns_in_lines_first_hits
    (splitlines : string -> list string) (lines : string)
    (patterns : list Pattern) :
  find_patterns_in_lines splitlines lines patterns =
    Return (map (fun p => first_hits p (splitlines lines)) patterns).
Proof.
  unfold find_patterns_in_lines.
  assert (E : repeat (@nil string) (List.length patterns)
              = map (fun p => first_hits p []) patterns).
  { induction patterns as [|p patterns IH]; [reflexivity|].
    cbn. rewrite IH. reflexivity. }
  rewrite E. apply (lines_loop_spec patterns (splitlines lines) []).
Qed.

(** ** InitializableMixin *)

Section InitializableFacts.

Variables (state args : Type).
Variable _initialize :
  args -> initializable state -> py unit * initializable state.

(** X13.  After an [initialize] that returned, every further [initialize] returns
    at once and leaves the object as it is: [_initialize] is not run again. *)
Theorem initialize_runs_once (a a' : args) (self : initializable state) :
  keeps_flag _initialize ->
  fst (initialize _initialize a self) = Return tt ->
  initialize _initialize a' (snd (initialize _initialize a self))
    = (Return tt, snd (initialize _initialize a self)).
Proof.
  intros Hkeep Hret.
  destruct (initialize _initialize a self) as [r self1] eqn:E.
  cbn [fst snd] in *. subst r.
  assert (Hflag1 : _is_initialized self1 = true).
  { unfold initialize in E.
    destruct (_is_initialized self) eqn:Hflag; cbn [negb] in E.
    - inversion E; subst. exact Hflag.
    - pose proof (Hkeep a (set_is_initialized true self)) as Hk.
      destruct (_initialize a (set_is_initialized true self))
        as [[[]|e] self0]; cbn [snd] in Hk.
      + inversion E; subst. exact Hk.
      + destruct (is_Exception e); discriminate. }
  unfold initialize. rewrite Hflag1. reflexivity.
Qed.

(** X14.  When [_initialize] raises an [Exception], [initialize] raises it too and
    the object is marked as not initialized, whatever [_initialize] did. *)
Theorem initialize_failure_resets_flag (a : args) (self self' : initializable state) e :
  initialize _initialize a self = (Throw e, self') ->
  is_Exception e = true ->
  _is_initialized self = false /\
  fst (_initialize a (set_is_initialized true self)) = Throw e /\
  _is_initialized self' = false.
Proof.
  unfold initialize.
  destruct (_is_initialized self); cbn [negb]; [discriminate|].
  destruct (_initialize a (set_is_initialized true self)) as [[[]|e0] self0];
    [discriminate|].
  destruct (is_Exception e0) eqn:He; intros H He'; inversion H; subst.
  - auto.
  - congruence.
Qed.

(** X15.  When [_initialize] is left by an exception that is not an [Exception]
    (a [KeyboardInterrupt]), the object stays marked as initialized: later
    calls of [initialize] do nothing, although the initialization did not
    finish. *)
Theorem initialize_interrupted_is_not_retried
    (a a' : args) (self self' : initializable state) e :
  keeps_flag _initialize ->
  initialize _initialize a self = (Throw e, self') ->
  is_Exception e = false ->
  _is_initialized self' = true /\
  initialize _initialize a' self' = (Return tt, self').
Proof.
  intros Hkeep. unfold initialize at 1.
  destruct (_is_initialized self); cbn [negb]; [discriminate|].
  pose proof (Hkeep a (set_is_initialized true self)) as Hk.
  destruct (_initialize a (set_is_initialized true self)) as [[[]|e0] self0];
    [discriminate|].
  cbn [snd] in Hk.
  destruct (is_Exception e0) eqn:He; intros H He'; inversion H; subst.
  - congruence.
  - split; [exact Hk|]. unfold initialize. rewrite Hk. reflexivity.
Qed.

End InitializableFacts.

(** ** ContextMixin *)

(** X16.  The context of an object is made once: whatever the first call did, a
    later call that returns gives the context that is stored, leaves it in
    place, and it is the one the first call returned. *)
Theorem get_context_is_made_once
    (class instance : Type) (construct : class -> instance)
    (isinstance : instance -> class -> bool)
    (t1 t2 : class) (self self1 self2 : option instance) r1 c2 :
  get_context construct isinstance t1 self = (r1, self1) ->
  get_context construct isinstance t2 self1 = (Return c2, self2) ->
  self2 = self1 /\ self1 = Some c2 /\
  isinstance c2 t2 = true /\
  forall c1, r1 = Return c1 -> c1 = c2.
Proof.
  unfold get_context. intros H1 H2.
  assert (Hs : exists c, self1 = Some c /\ forall c1, r1 = Return c1 -> c1 = c).
  { destruct self as [c|].
    - destruct (isinstance c t1); inversion H1; subst.
      + exists c. split; [reflexivity|]. intros c1 E. inversion E. reflexivity.
      + exists c. split; [reflexivity|]. discriminate.
    - inversion H1; subst. eexists. split; [reflexivity|].
      intros c1 E. inversion E. reflexivity. }
  destruct Hs as (c & -> & Hr).
  destruct (isinstance c t2) eqn:Hi; inversion H2; subst. auto.
Qed.

(** ** Strings *)

Lemma string_length_app (a b : string) :
  length (a ++ b) = length a + length b.
Proof. induction a as [|c a IH]; cbn; [reflexivity|rewrite IH; reflexivity]. Qed.

Lemma string_app_assoc (a b c : string) : (a ++ b) ++ c = a ++ (b ++ c).
Proof. induction a as [|x a IH]; cbn; [reflexivity|rewrite IH; reflexivity]. Qed.

Lemma substring_prefix (a b : string) : substring 0 (length a) (a ++ b) = a.
Proof.
  induction a as [|c a IH]; cbn.
  - destruct b; reflexivity.
  - rewrite IH. reflexivity.
Qed.

Lemma but_last3_app (a b : string) : length b = 3 -> but_last3 (a ++ b) = a.
Proof.
  intros Hb. unfold but_last3. rewrite string_length_app, Hb.
  replace (length a + 3 - 3) with (length a) by lia.
  apply substring_prefix.
Qed.

(** ** get_datetime_path *)

Lemma pad6_split (n : N) : pad6 n = pad3 (n / 1000) ++ pad3 n.
Proof.
  unfold pad6, pad4, pad3, pad2. cbn [append].
  rewrite !N.Div0.div_div. reflexivity.
Qed.

Lemma strftime_Y_length (y : N) :
  length (strftime_Y y) =
    if (y <? 10)%N then 1 else if (y <? 100)%N then 2
    else if (y <? 1000)%N then 3 else 4.
Proof.
  unfold strftime_Y.
  destruct (y <? 10)%N; [reflexivity|].
  destruct (y <? 100)%N; [reflexivity|].
  destruct (y <? 1000)%N; reflexivity.
Qed.

(** X17.  The value of [get_datetime_path] does not depend on [current]: the date
    is the one of a first reading of the clock, the time the one of a second
    reading, and its microseconds are cut, not rounded, to milliseconds.
    The string has 19 characters from the year 1000 on, and fewer before,
    where the year is written with fewer than four digits. *)
Theorem get_datetime_path_shape
    (utc : nat -> datetime) (current : option datetime) (readings : nat) :
  let first := match current with None => S readings | Some _ => readings end in
  let d := utc first in
  let t := utc (S first) in
  get_datetime_path utc current readings =
    (strftime_Y (year d) ++ pad2 (month d) ++ pad2 (day d) ++ "-"
       ++ pad2 (hour t) ++ pad2 (minute t) ++ pad2 (second t) ++ "-"
       ++ pad3 (microsecond t / 1000),
     S (S first)) /\
  length (fst (get_datetime_path utc current readings)) =
    length (strftime_Y (year d)) + 15 /\
  ((1000 <= year d)%N ->
   strftime_Y (year d) = pad4 (year d) /\
   length (fst (get_datetime_path utc current readings)) = 19) /\
  ((year d < 1000)%N ->
   length (fst (get_datetime_path utc current readings)) < 19).
Proof.
  intros first d t.
  assert (Htime : but_last3 (strftime_HMSf t)
                  = pad2 (hour t) ++ pad2 (minute t) ++ pad2 (second t) ++ "-"
                      ++ pad3 (microsecond t / 1000)).
  { unfold strftime_HMSf. rewrite pad6_split.
    rewrite <- !string_app_assoc. rewrite but_last3_app by reflexivity.
    reflexivity. }
  assert (E : get_datetime_path utc current readings =
              (strftime_Ymd d ++ "-" ++ but_last3 (strftime_HMSf t),
               S (S first))).
  { unfold get_datetime_path. subst first d t. destruct current; reflexivity. }
  assert (Hlen : length (fst (get_datetime_path utc current readings)) =
                 length (strftime_Y (year d)) + 15).
  { rewrite E, Htime. cbn [fst]. unfold strftime_Ymd.
    rewrite !string_length_app. cbn [length pad2 pad3]. lia. }
  split; [|split; [exact Hlen|split]].
  - rewrite E, Htime. unfold strftime_Ymd. rewrite !string_app_assoc.
    reflexivity.
  - intros Hy. rewrite Hlen, strftime_Y_length. unfold strftime_Y.
    assert (E1 : (year d <? 10)%N = false) by (apply N.ltb_ge; lia).
    assert (E2 : (year d <? 100)%N = false) by (apply N.ltb_ge; lia).
    assert (E3 : (year d <? 1000)%N = false) by (apply N.ltb_ge; lia).
    rewrite E1, E2, E3. split; reflexivity.
  - intros Hy. rewrite Hlen, strftime_Y_length.
    assert (E3 : (year d <? 1000)%N = true) by (apply N.ltb_lt; lia).
    rewrite E3.
    destruct (year d <? 10)%N; [lia|]. destruct (year d <? 100)%N; lia.
Qed.

(** ** get_public_key_data *)

Lemma rfind_app (c : ascii) (a b : string) :
  rfind c (a ++ b) =
    match rfind c b with
    | Some i => Some (length a + i)
    | None => rfind c a
    end.
Proof.
  induction a as [|x a IH]; cbn [append rfind length].
  - destruct (rfind c b); reflexivity.
  - rewrite IH. destruct (rfind c b); reflexivity.
Qed.

(** The stem of [base.ext] is [base]. *)
Lemma stem_of_suffixed (p : Path) (base ext : string) :
  name p = base ++ "." ++ ext ->
  base <> "" -> ext <> "" -> rfind "."%char ext = None ->
  stem p = base.
Proof.
  intros Hname Hbase Hext Hdot. unfold stem. rewrite Hname.
  rewrite rfind_app. cbn [append rfind]. rewrite Hdot. cbn [Ascii.eqb Bool.eqb].
  rewrite Nat.add_0_r, string_length_app. cbn [length].
  assert (Hb : 0 < length base) by (destruct base; [congruence|cbn; lia]).
  assert (He : 0 < length ext) by (destruct ext; [congruence|cbn; lia]).
  assert (E1 : (0 <? length base)%nat = true) by (apply Nat.ltb_lt; lia).
  assert (E2 : (length base <? length base + S (length ext) - 1)%nat = true)
    by (apply Nat.ltb_lt; lia).
  rewrite E1, E2. cbn [andb].
  change (String "." ext) with ("." ++ ext).
  apply substring_prefix.
Qed.

Section FilesFacts.

Variable parse : string -> Path.
Variable path_text : Path -> string.
Variable fs : Path -> option node.

(** X18.  For a private key [base.ext] that exists, the file that is read is
    [base.pub] in the same directory: the last suffix is replaced. *)
Theorem get_public_key_data_replaces_suffix
    (private_key_file_path base ext : string) (n : node) :
  name (parse private_key_file_path) = base ++ "." ++ ext ->
  base <> "" -> ext <> "" -> rfind "."%char ext = None ->
  fs (parse private_key_file_path) = Some n ->
  let public_key_path :=
    {| parent := parent (parse private_key_file_path);
       name := base ++ ".pub" |} in
  get_public_key_data parse path_text fs private_key_file_path =
    match fs public_key_path with
    | None =>
        Throw (LisaException
                 ("public key file not exist " ++ path_text public_key_path))
    | Some Directory => Throw IsADirectoryError
    | Some (File public_key_data) => Return public_key_data
    end.
Proof.
  intros Hname Hbase Hext Hdot Hfs public_key_path.
  unfold get_public_key_data. rewrite Hfs.
  rewrite (stem_of_suffixed _ base ext Hname Hbase Hext Hdot).
  reflexivity.
Qed.

(** X19.  Given the path of a public key file [base.pub] itself, the function
    takes it for the private key and returns the content of that same
    file. *)
Theorem get_public_key_data_of_public_key
    (private_key_file_path base data : string) :
  name (parse private_key_file_path) = base ++ ".pub" ->
  base <> "" ->
  fs (parse private_key_file_path) = Some (File data) ->
  get_public_key_data parse path_text fs private_key_file_path = Return data.
Proof.
  intros Hname Hbase Hfs.
  unfold get_public_key_data. rewrite Hfs.
  rewrite (stem_of_suffixed _ base "pub" Hname Hbase); [|discriminate|reflexivity].
  assert (E : {| parent := parent (parse private_key_file_path);
                 name := base ++ ".pub" |} = parse private_key_file_path).
  { rewrite <- Hname. destruct (parse private_key_file_path); reflexivity. }
  rewrite E, Hfs. reflexivity.
Qed.

End FilesFacts.

End UtilFacts.

(** * The runner on sample runs, again *)

Module RunnerChecks.

Import Sample.


Lemma no_callback_no_call_witness :
  exists r w',
    run_in_threads failure_then_slow 0 false (boot None) = Some (r, w') /\
    invocations w' = [].
Proof.
  eassert (E : run_in_threads failure_then_slow 0 false (boot None)
               = Some (_, _)) by (vm_compute; reflexivity).
  do 2 eexists. split; [exact E|].
  exact (@no_callback_no_call nat nat failure_then_slow 0%Z None _ _ E).
Defined.

Lemma returned_run_took_each_outcome_once_witness :
  exists rs w',
    run_in_threads slow_then_fast 0 false (boot None) = Some (Ret rs, w') /\
    Permutation (joined w') [0; 1].
Proof.
  eassert (E : run_in_threads slow_then_fast 0 false (boot None)
               = Some (Ret _, _)) by (vm_compute; reflexivity).
  do 2 eexists. split; [exact E|].
  exact (@returned_run_took_each_outcome_once nat nat slow_then_fast 0%Z
           false _ _ E).
Defined.

(** The callable submitted second finishes first: its future is the one the
    loop takes, the other is left in [futures], and the results come in the
    order of the calls of [result()]. *)
Lemma results_follow_the_order_of_result_calls_witness :
  exists taken left rs w',
    run_in_threads slow_then_fast 0 false (boot None) = Some (Ret rs, w') /\
    rs = values (map (@job nat nat) (taken ++ left)) /\
    joined w' = map (@fid nat nat) (taken ++ left) /\
    rs = [20; 10] /\ joined w' = [1; 0].
Proof.
  destruct (@results_follow_the_order_of_result_calls nat nat
              slow_then_fast 0%Z false)
    as (fr & w0 & taken & left & w1 & rs & w' & _ & _ & _ & _ & _ &
        Hrun & Hrs & Hj & _).
  - repeat constructor; eexists; reflexivity.
  - left. discriminate.
  - exists taken, left, rs, w'.
    split; [exact Hrun|]. split; [exact Hrs|]. split; [exact Hj|].
    vm_compute in Hrun. injection Hrun as E1 E2. subst rs w'.
    split; reflexivity.
Defined.

(** [max_workers = -1] with one callable, and with none. *)
Lemma negative_max_workers_is_one_worker_per_task_witness :
  run_in_threads one_slow (-1) false (boot None)
    = run_in_threads one_slow 0 false (boot None) /\
  (exists r w' fs,
     run_in_threads one_slow (-1) false (boot None) = Some (r, w') /\
     submitted w' = fs /\ map (@job nat nat) fs = one_slow) /\
  run_in_threads (@nil (@method nat nat)) (-1) false (boot None)
    = Some (Raise ValueError, boot None).
Proof.
  assert (Hneg : (-1 < 0)%Z) by reflexivity.
  destruct (@negative_max_workers_is_one_worker_per_task nat nat
              one_slow (-1) false (boot None) Hneg) as (H1 & _ & H2).
  destruct H2 as (_ & H3); [discriminate|].
  split; [exact H1|]. split; [exact (H3 eq_refl)|].
  exact (proj1 (proj2 (@negative_max_workers_is_one_worker_per_task nat nat
                         [] (-1) false (boot None) Hneg)) eq_refl).
Defined.



End RunnerChecks.

(** * The helpers on sample objects *)

Module UtilChecks.

Import Stdlib.Strings.String Stdlib.Strings.Ascii.
Import Util UtilSample UtilFacts.
Local Open Scope string_scope.

Lemma fields_to_dict_lookup_witness :
  assoc_get "size" [("size", 3); ("name", 1)] = Some 3 <->
  In "size" ["size"; "port"; "name"] /\
  getattr server "size" = Return (Some 3).
Proof.
  apply (@fields_to_dict_lookup nat server ["size"; "port"; "name"] _ eq_refl).
Defined.

(** An empty list is refused, an iterator that yields nothing is not; a
    missing attribute is named. *)
Lemma fields_to_dict_returns_witness :
  fields_to_dict server [] = Throw AssertionError /\
  fields_to_dict_iterable server true [] = Return [] /\
  fields_to_dict server ["name"; "owner"] = Throw (AttributeError "owner").
Proof.
  split; [reflexivity|]. split.
  - exact (proj2 (proj2 (proj2 (@fields_to_dict_returns nat server [])))
             eq_refl).
  - apply (proj1 (proj2 (@fields_to_dict_returns nat server ["name"; "owner"]))
             ["name"] "owner" [] eq_refl eq_refl).
    + repeat constructor.
    + reflexivity.
Defined.



Lemma set_filtered_fields_twice_witness :
  exists dest',
    set_filtered_fields server blank ["size"; "port"; "name"]
      = (Return tt, dest') /\
    set_filtered_fields server dest' ["size"; "port"; "name"]
      = (Return tt, dest').
Proof.
  eexists. split; [reflexivity|].
  apply (@set_filtered_fields_twice nat server blank
           ["size"; "port"; "name"] _ eq_refl).
Defined.

Lemma initialize_runs_once_witness :
  initialize adding 7 (snd (initialize adding 5 fresh))
    = (Return tt, snd (initialize adding 5 fresh)).
Proof.
  apply (@initialize_runs_once nat nat adding 5 7 fresh).
  - intros a self. reflexivity.
  - reflexivity.
Defined.

(** The mixin's own [_initialize]: [NotImplementedError], and the object is
    not initialized. *)
Lemma initialize_failure_resets_flag_witness :
  initialize (@_initialize_base nat nat) 5 fresh
    = (Throw NotImplementedError, fresh) /\
  _is_initialized fresh = false.
Proof.
  split; [reflexivity|].
  exact (proj1 (@initialize_failure_resets_flag nat nat
                  (@_initialize_base nat nat) 5 fresh fresh
                  NotImplementedError eq_refl eq_refl)).
Defined.

Lemma initialize_interrupted_is_not_retried_witness :
  exists self',
    initialize interrupted 5 fresh
      = (Throw (Other "KeyboardInterrupt" false), self') /\
    _is_initialized self' = true /\
    initialize interrupted 7 self' = (Return tt, self').
Proof.
  eexists. split; [reflexivity|].
  apply (@initialize_interrupted_is_not_retried nat nat interrupted 5 7
           fresh _ (Other "KeyboardInterrupt" false)).
  - intros a self. reflexivity.
  - reflexivity.
  - reflexivity.
Defined.

(** Classes are numbers, an instance is the number of its class. *)
Lemma get_context_is_made_once_witness :
  get_context (fun t : nat => t) Nat.eqb 4 (Some 4) = (Return 4, Some 4) /\
  (forall c1, Return 4 = Return c1 -> c1 = 4).
Proof.
  destruct (@get_context_is_made_once nat nat (fun t => t) Nat.eqb 4 4
              None (Some 4) (Some 4) (Return 4) 4 eq_refl eq_refl)
    as (_ & _ & _ & H).
  split; [reflexivity|exact H].
Defined.

Lemma get_datetime_path_shape_witness :
  fst (get_datetime_path in_2021 None 0) = "20210307-090530-123" /\
  length (fst (get_datetime_path in_2021 None 0)) = 19 /\
  fst (get_datetime_path in_999 None 0) = "9990307-090530-123" /\
  length (fst (get_datetime_path in_999 None 0)) < 19.
Proof.
  pose proof (get_datetime_path_shape in_2021 None 0) as H1.
  pose proof (get_datetime_path_shape in_999 None 0) as H2.
  cbv zeta in H1, H2.
  destruct H1 as (_ & _ & H1 & _). destruct H2 as (_ & _ & _ & H2).
  split; [reflexivity|]. split; [|split; [reflexivity|]].
  - apply H1. discriminate.
  - apply H2. reflexivity.
Defined.

Lemma get_public_key_data_replaces_suffix_witness :
  get_public_key_data one_component name key_files "id_rsa.pem"
    = Return "ssh-rsa AAAA".
Proof.
  apply (@get_public_key_data_replaces_suffix one_component name key_files
           "id_rsa.pem" "id_rsa" "pem" (File "PRIVATE")).
  - reflexivity.
  - discriminate.
  - discriminate.
  - reflexivity.
  - reflexivity.
Defined.

Lemma get_public_key_data_of_public_key_witness :
  get_public_key_data one_component name key_files "id_rsa.pub"
    = Return "ssh-rsa AAAA".
Proof.
  apply (@get_public_key_data_of_public_key one_component name key_files
           "id_rsa.pub" "id_rsa" "ssh-rsa AAAA").
  - reflexivity.
  - discriminate.
  - reflexivity.
Defined.

End UtilChecks.
